(** * Verification of the task supervision engine of rs-sdk

    Shallow embedding of
    - [src/sdk/state-diff.ts] ([createEmptyDiff], [computeStateDiff]),
    - the task context ([TaskContext], src/unnamed/part_000),
    - the task manager ([TaskManager], src/unnamed/part_001),
    - the [run_task] execution harness of [src/mcp/server.ts],
    and the claims of the specification about them. *)

From Stdlib Require Import String Ascii ZArith List Bool Lia.
From Stdlib Require Import Reals Lra.
Import ListNotations.
Open Scope Z_scope.

(* ------------------------------------------------------------------ *)
(** ** JavaScript [Map]: an association list in insertion order *)

Module JsMap.
Section JsMap.
Context {K V : Type} (keq : K -> K -> bool).

(** [m.get(k)] *)
Fixpoint get (m : list (K * V)) (k : K) : option V :=
  match m with
  | [] => None
  | (k', v) :: r => if keq k' k then Some v else get r k
  end.

(** [m.has(k)] *)
Definition has (m : list (K * V)) (k : K) : bool :=
  match get m k with Some _ => true | None => false end.

(** [m.set(k, v)]: an existing key keeps its position, a new key is
    appended at the end of the iteration order. *)
Fixpoint set (m : list (K * V)) (k : K) (v : V) : list (K * V) :=
  match m with
  | [] => [(k, v)]
  | (k', v') :: r => if keq k' k then (k', v) :: r else (k', v') :: set r k v
  end.

(** [m.delete(k)] *)
Fixpoint delete (m : list (K * V)) (k : K) : list (K * V) :=
  match m with
  | [] => []
  | (k', v') :: r => if keq k' k then r else (k', v') :: delete r k
  end.
End JsMap.
End JsMap.

(* ------------------------------------------------------------------ *)
(** ** World snapshots (the fields of [BotWorldState] the differ reads) *)

Record InventoryItem := mkItem {
  item_id : Z;
  item_name : string;
  item_count : Z
}.

Record SkillState := mkSkill {
  skill_name : string;
  skill_level : Z;
  skill_baseLevel : Z;
  skill_experience : Z
}.

Record NearbyNpc := mkNpc {
  npc_index : Z;
  npc_name : string;
  npc_inCombat : bool
}.

Record CombatEvent := mkEvent {
  evt_tick : Z;
  evt_type : string;
  evt_damage : Z
}.

Record GameMessage := mkMessage {
  msg_tick : Z;
  msg_text : string
}.

Record PlayerState := mkPlayer {
  worldX : Z;
  worldZ : Z
}.

Record ShopState := mkShop {
  shop_isOpen : bool;
  shop_title : string
}.

(** [player], [interface], [shop], [combatEvents] and [gameMessages] are
    optional in the source ([?.] and [if (after.combatEvents)]); the
    interface is represented by its [isOpen] flag. *)
Record BotWorldState := mkState {
  tick : Z;
  player : option PlayerState;
  inventory : list InventoryItem;
  skills : list SkillState;
  nearbyNpcs : list NearbyNpc;
  dialog_isOpen : bool;
  interface_isOpen : option bool;
  shop : option ShopState;
  combatEvents : option (list CombatEvent);
  gameMessages : option (list GameMessage)
}.

(* ------------------------------------------------------------------ *)
(** ** The diff *)

(** One line of [diff.summary]; each constructor is one of the template
    strings the source pushes, carrying the values it interpolates. *)
Inductive SummaryLine :=
| SInvPlus (n : Z) (name : string)        (* `+${n} ${name}` *)
| SInvMinus (n : Z) (name : string)       (* `-${n} ${name}` *)
| SLevelUp (name : string) (level : Z)    (* `LEVEL UP! ${name} -> ${level}` *)
| SXp (n : Z) (name : string)             (* `+${n} ${name} XP` *)
| STook (n : Z)                           (* `Took ${n} damage` *)
| SDealt (n : Z)                          (* `Dealt ${n} damage` *)
| SKilled (n : Z)                         (* `Killed ${n} target(s)` *)
| SMoved (n : Z)                          (* `Moved ${n} tiles` *)
| SDialogOpened | SDialogClosed
| SShopOpened (title : option string)     (* `Shop opened: ${after.shop?.title}` *)
| SShopClosed
| SDied (name : string).                  (* `${npc.name} died` *)

Record InvEntry := mkInvEntry { e_name : string; e_count : Z; e_id : Z }.

(** [{ ...item, before, after }] *)
Record InvChange := mkInvChange {
  c_name : string; c_count : Z; c_id : Z; c_before : Z; c_after : Z
}.

Record XpGain := mkXpGain {
  x_name : string; x_xp : Z; x_levelUp : bool; x_newLevel : option Z
}.

Record CombatDiff := mkCombat {
  damageTaken : Z; damageDealt : Z; kills : Z; healthChange : Z
}.

Record PositionDiff := mkPosition {
  moved : bool;
  pos_from : option (Z * Z);
  pos_to : option (Z * Z);
  distance : Z
}.

Record UiDiff := mkUi {
  dialogOpened : bool; dialogClosed : bool;
  interfaceOpened : bool; interfaceClosed : bool;
  shopOpened : bool; shopClosed : bool
}.

Record NpcRef := mkNpcRef { r_name : string; r_index : Z }.

Record StateDiff := mkDiff {
  tick_before : Z; tick_after : Z; tick_elapsed : Z;
  inv_gained : list InvEntry;
  inv_lost : list InvEntry;
  inv_changed : list InvChange;
  xpGained : list XpGain;
  combat : CombatDiff;
  position : PositionDiff;
  ui : UiDiff;
  npcs_appeared : list NpcRef;
  npcs_disappeared : list NpcRef;
  npcs_died : list NpcRef;
  messages : list string;
  summary : list SummaryLine
}.

Definition emptyPosition : PositionDiff := mkPosition false None None 0.

Definition emptyUi : UiDiff := mkUi false false false false false false.

(** [createEmptyDiff(tick)] *)
Definition createEmptyDiff (t : Z) : StateDiff :=
  mkDiff t t 0 [] [] [] [] (mkCombat 0 0 0 0) emptyPosition emptyUi
         [] [] [] [] [].

(* ------------------------------------------------------------------ *)
(** ** [computeStateDiff], section by section

    The source pushes onto [diff.summary] section after section; each
    section below returns its own lines, and [computeStateDiff] joins them
    in the source's order.  A push is [l ++ [x]]. *)

(** Inventory: [beforeInv] / [afterInv], grouped by item id.  The first
    stack of an id creates the entry, later stacks add to its count
    ([existing.count += item.count]). *)
Definition group_step (m : list (Z * InvEntry)) (item : InventoryItem)
  : list (Z * InvEntry) :=
  match JsMap.get Z.eqb m (item_id item) with
  | Some existing =>
      JsMap.set Z.eqb m (item_id item)
        (mkInvEntry (e_name existing) (e_count existing + item_count item)
                    (e_id existing))
  | None =>
      JsMap.set Z.eqb m (item_id item)
        (mkInvEntry (item_name item) (item_count item) (item_id item))
  end.

Definition group_items (items : list InventoryItem) : list (Z * InvEntry) :=
  fold_left group_step items [].

Record InvPart := mkInvPart {
  ip_gained : list InvEntry;
  ip_lost : list InvEntry;
  ip_changed : list InvChange;
  ip_summary : list SummaryLine
}.

(** One iteration of [for (const [id, item] of afterInv)]. *)
Definition gained_step (beforeInv : list (Z * InvEntry)) (acc : InvPart)
  (e : Z * InvEntry) : InvPart :=
  let '(id, item) := e in
  match JsMap.get Z.eqb beforeInv id with
  | None =>
      mkInvPart (ip_gained acc ++ [item]) (ip_lost acc) (ip_changed acc)
        (ip_summary acc ++ [SInvPlus (e_count item) (e_name item)])
  | Some beforeItem =>
      if e_count beforeItem <? e_count item then
        mkInvPart (ip_gained acc) (ip_lost acc)
          (ip_changed acc ++ [mkInvChange (e_name item) (e_count item) (e_id item)
                                (e_count beforeItem) (e_count item)])
          (ip_summary acc ++ [SInvPlus (e_count item - e_count beforeItem) (e_name item)])
      else acc
  end.

(** One iteration of [for (const [id, item] of beforeInv)]. *)
Definition lost_step (afterInv : list (Z * InvEntry)) (acc : InvPart)
  (e : Z * InvEntry) : InvPart :=
  let '(id, item) := e in
  match JsMap.get Z.eqb afterInv id with
  | None =>
      mkInvPart (ip_gained acc) (ip_lost acc ++ [item]) (ip_changed acc)
        (ip_summary acc ++ [SInvMinus (e_count item) (e_name item)])
  | Some afterItem =>
      if e_count afterItem <? e_count item then
        mkInvPart (ip_gained acc) (ip_lost acc)
          (if existsb (fun c => c_id c =? id) (ip_changed acc) then ip_changed acc
           else ip_changed acc ++ [mkInvChange (e_name item) (e_count item) (e_id item)
                                     (e_count item) (e_count afterItem)])
          (ip_summary acc ++ [SInvMinus (e_count item - e_count afterItem) (e_name item)])
      else acc
  end.

Definition diff_inventory (before after : BotWorldState) : InvPart :=
  let beforeInv := group_items (inventory before) in
  let afterInv := group_items (inventory after) in
  let acc := fold_left (gained_step beforeInv) afterInv (mkInvPart [] [] [] []) in
  fold_left (lost_step afterInv) beforeInv acc.

(** Skills: [beforeSkills] maps a name to the last skill of that name. *)
Definition skill_map (ss : list SkillState) : list (string * SkillState) :=
  fold_left (fun m s => JsMap.set String.eqb m (skill_name s) s) ss [].

Definition skill_step (beforeSkills : list (string * SkillState))
  (acc : list XpGain * list SummaryLine) (skill : SkillState)
  : list XpGain * list SummaryLine :=
  match JsMap.get String.eqb beforeSkills (skill_name skill) with
  | Some beforeSkill =>
      if skill_experience beforeSkill <? skill_experience skill then
        let xpGain := skill_experience skill - skill_experience beforeSkill in
        let levelUp := skill_baseLevel beforeSkill <? skill_baseLevel skill in
        (fst acc ++ [mkXpGain (skill_name skill) xpGain levelUp
                       (if levelUp then Some (skill_baseLevel skill) else None)],
         snd acc ++ [if levelUp then SLevelUp (skill_name skill) (skill_baseLevel skill)
                     else SXp xpGain (skill_name skill)])
      else acc
  | None => acc
  end.

Definition diff_skills (before after : BotWorldState)
  : list XpGain * list SummaryLine :=
  fold_left (skill_step (skill_map (skills before))) (skills after) ([], []).

(** [skills.find(s => s.name === 'Hitpoints')?.level ?? 10] *)
Definition hitpoints (ss : list SkillState) : Z :=
  match find (fun s => String.eqb (skill_name s) "Hitpoints") ss with
  | Some s => skill_level s
  | None => 10
  end.

Definition combat_step (c : CombatDiff) (evt : CombatEvent) : CombatDiff :=
  if String.eqb (evt_type evt) "damage_taken" then
    mkCombat (damageTaken c + evt_damage evt) (damageDealt c) (kills c) (healthChange c)
  else if String.eqb (evt_type evt) "damage_dealt" then
    mkCombat (damageTaken c) (damageDealt c + evt_damage evt) (kills c) (healthChange c)
  else if String.eqb (evt_type evt) "kill" then
    mkCombat (damageTaken c) (damageDealt c) (kills c + 1) (healthChange c)
  else c.

Definition diff_combat (before after : BotWorldState)
  : CombatDiff * list SummaryLine :=
  let c0 := mkCombat 0 0 0 (hitpoints (skills after) - hitpoints (skills before)) in
  let c := match combatEvents after with
           | Some evs => fold_left combat_step
                           (filter (fun e => tick before <? evt_tick e) evs) c0
           | None => c0
           end in
  (c, (if 0 <? damageTaken c then [STook (damageTaken c)] else [])
      ++ (if 0 <? damageDealt c then [SDealt (damageDealt c)] else [])
      ++ (if 0 <? kills c then [SKilled (kills c)] else [])).

(** [Math.round(Math.sqrt(n))] for an integer [n >= 0]: with [s] the
    integer square root, [sqrt n + 1/2 >= s + 1] iff [n > s*s + s]. *)
Definition round_sqrt (n : Z) : Z :=
  let s := Z.sqrt n in if s <? n - s * s then s + 1 else s.

(** Position.  Coordinates are tile integers; [dist = Math.sqrt(dx*dx+dz*dz)]
    is handled through its square [n]: [dist > 0] iff [n > 0] and
    [dist >= 5] iff [n >= 25]. *)
Definition diff_position (before after : BotWorldState)
  : PositionDiff * list SummaryLine :=
  match player before, player after with
  | Some b, Some a =>
      let dx := worldX a - worldX b in
      let dz := worldZ a - worldZ b in
      let n := dx * dx + dz * dz in
      if 0 <? n then
        (mkPosition true (Some (worldX b, worldZ b)) (Some (worldX a, worldZ a))
                    (round_sqrt n),
         if 25 <=? n then [SMoved (round_sqrt n)] else [])
      else (emptyPosition, [])
  | _, _ => (emptyPosition, [])
  end.

(** [x?.isOpen] read as a boolean: an absent object is closed. *)
Definition open_flag (o : option bool) : bool :=
  match o with Some b => b | None => false end.

Definition shop_open (s : option ShopState) : bool :=
  match s with Some s => shop_isOpen s | None => false end.

Definition diff_ui (before after : BotWorldState) : UiDiff * list SummaryLine :=
  let u := mkUi (negb (dialog_isOpen before) && dialog_isOpen after)
                (dialog_isOpen before && negb (dialog_isOpen after))
                (negb (open_flag (interface_isOpen before)) && open_flag (interface_isOpen after))
                (open_flag (interface_isOpen before) && negb (open_flag (interface_isOpen after)))
                (negb (shop_open (shop before)) && shop_open (shop after))
                (shop_open (shop before) && negb (shop_open (shop after))) in
  (u, (if dialogOpened u then [SDialogOpened] else [])
      ++ (if dialogClosed u then [SDialogClosed] else [])
      ++ (if shopOpened u then [SShopOpened (option_map shop_title (shop after))] else [])
      ++ (if shopClosed u then [SShopClosed] else [])).

Definition npc_map (ns : list NearbyNpc) : list (Z * NearbyNpc) :=
  fold_left (fun m n => JsMap.set Z.eqb m (npc_index n) n) ns [].

Record NpcPart := mkNpcPart {
  np_appeared : list NpcRef;
  np_disappeared : list NpcRef;
  np_died : list NpcRef;
  np_summary : list SummaryLine
}.

Definition diff_npcs (before after : BotWorldState) : NpcPart :=
  let beforeNpcs := npc_map (nearbyNpcs before) in
  let afterNpcs := npc_map (nearbyNpcs after) in
  let appeared :=
    map (fun n => mkNpcRef (npc_name n) (npc_index n))
        (filter (fun n => negb (JsMap.has Z.eqb beforeNpcs (npc_index n)))
                (nearbyNpcs after)) in
  let gone := filter (fun e => negb (JsMap.has Z.eqb afterNpcs (fst e))) beforeNpcs in
  let dead := filter (fun e => npc_inCombat (snd e)) gone in
  mkNpcPart appeared
    (map (fun e => mkNpcRef (npc_name (snd e)) (fst e)) gone)
    (map (fun e => mkNpcRef (npc_name (snd e)) (fst e)) dead)
    (map (fun e => SDied (npc_name (snd e))) dead).

(** [text.replace(/@\w+@/g, '')]: scanning left to right, an [@], a
    non-empty run of word characters and an [@] are removed; any other
    character is kept. *)
Definition is_word_char (c : ascii) : bool :=
  let n := nat_of_ascii c in
  (Nat.leb 48 n && Nat.leb n 57) || (Nat.leb 65 n && Nat.leb n 90)
  || (Nat.leb 97 n && Nat.leb n 122) || Nat.eqb n 95.

Fixpoint word_span (s : string) : string * string :=
  match s with
  | EmptyString => (EmptyString, EmptyString)
  | String c r =>
      if is_word_char c then let '(w, rest) := word_span r in (String c w, rest)
      else (EmptyString, s)
  end.

Fixpoint strip_fuel (fuel : nat) (s : string) : string :=
  match fuel with
  | O => s
  | S f =>
      match s with
      | EmptyString => EmptyString
      | String c r =>
          if Ascii.eqb c "@"%char then
            match word_span r with
            | (String _ _, String c' r') =>
                if Ascii.eqb c' "@"%char then strip_fuel f r'
                else String c (strip_fuel f r)
            | _ => String c (strip_fuel f r)
            end
          else String c (strip_fuel f r)
      end
  end.

Definition strip_markers (s : string) : string := strip_fuel (String.length s) s.

Definition diff_messages (before after : BotWorldState) : list string :=
  match gameMessages after with
  | Some ms => map (fun m => strip_markers (msg_text m))
                   (filter (fun m => tick before <? msg_tick m) ms)
  | None => []
  end.

(** [computeStateDiff(before, after)] *)
Definition computeStateDiff (before after : BotWorldState) : StateDiff :=
  let inv := diff_inventory before after in
  let sk := diff_skills before after in
  let cb := diff_combat before after in
  let pos := diff_position before after in
  let u := diff_ui before after in
  let np := diff_npcs before after in
  mkDiff (tick before) (tick after) (tick after - tick before)
    (ip_gained inv) (ip_lost inv) (ip_changed inv)
    (fst sk) (fst cb) (fst pos) (fst u)
    (np_appeared np) (np_disappeared np) (np_died np)
    (diff_messages before after)
    (ip_summary inv ++ snd sk ++ snd cb ++ snd pos ++ snd u ++ np_summary np).

Example strip_markers_ex :
  strip_markers "@red@Hello @@x@ there@" = "Hello @ there@"%string.
Proof. reflexivity. Qed.

Example round_sqrt_ex :
  map round_sqrt [1; 2; 3; 6; 7; 25; 30; 31] = [1; 1; 2; 2; 3; 5; 5; 6].
Proof. reflexivity. Qed.

(** Snapshots that differ from [S] in one field, and concrete snapshots
    used as inputs in the statements below. *)
Definition with_inventory (S : BotWorldState) (inv : list InventoryItem) : BotWorldState :=
  mkState (tick S) (player S) inv (skills S) (nearbyNpcs S) (dialog_isOpen S)
          (interface_isOpen S) (shop S) (combatEvents S) (gameMessages S).

Definition with_skills (S : BotWorldState) (ss : list SkillState) : BotWorldState :=
  mkState (tick S) (player S) (inventory S) ss (nearbyNpcs S) (dialog_isOpen S)
          (interface_isOpen S) (shop S) (combatEvents S) (gameMessages S).

Definition with_player (S : BotWorldState) (p : option PlayerState) : BotWorldState :=
  mkState (tick S) p (inventory S) (skills S) (nearbyNpcs S) (dialog_isOpen S)
          (interface_isOpen S) (shop S) (combatEvents S) (gameMessages S).

Definition snap_empty : BotWorldState :=
  mkState 0 None [] [] [] false None None None None.

(** A snapshot at tick 0 whose combat event list holds an event of tick 1. *)
Definition snap_late_event : BotWorldState :=
  mkState 0 None [] [] [] false None None
          (Some [mkEvent 1 "damage_taken" 3]) None.

(** A snapshot in which every event and message is already past. *)
Definition snap_town : BotWorldState :=
  mkState 7 (Some (mkPlayer 3200 3200)) [mkItem 995 "Coins" 10]
          [mkSkill "Hitpoints" 10 10 1154] [mkNpc 4 "Man" true] true
          (Some false) None (Some [mkEvent 7 "kill" 0])
          (Some [mkMessage 6 "@red@Welcome"]).

(** Skills before and after a woodcutting level-up. *)
Definition skills_wc_before : list SkillState :=
  [mkSkill "Hitpoints" 10 10 1154; mkSkill "Woodcutting" 1 1 60].

Definition skills_wc_after : list SkillState :=
  [mkSkill "Hitpoints" 10 10 1154; mkSkill "Woodcutting" 2 2 85].

(* ------------------------------------------------------------------ *)
(** ** Task context ([TaskContext], src/unnamed/part_000) *)

(** [TaskStatus['status']] *)
Inductive CtxStatus := CRunning | CPaused | CCompleted | CFailed | CAborted.

Definition CtxStatus_eqb (a b : CtxStatus) : bool :=
  match a, b with
  | CRunning, CRunning | CPaused, CPaused | CCompleted, CCompleted
  | CFailed, CFailed | CAborted, CAborted => true
  | _, _ => false
  end.

(** [TaskProgress['status']] *)
Inductive ProgressStatus := PStarting | PInProgress | PCompleted | PFailed | PPaused.

(** [TaskProgress] (the optional [progress] and [data] fields are not read
    by the engine and are left out). *)
Record TaskProgress := mkProgress {
  pr_action : string;
  pr_status : ProgressStatus;
  pr_message : option string
}.

(** [CheckpointResult]; an absent [abort] is [false]. *)
Record CheckpointResult := mkResult {
  cr_continue : bool;
  cr_newInstructions : option string;
  cr_abort : bool;
  cr_abortReason : option string
}.

(** Task ids: [`task-${++taskCounter}-${Date.now().toString(36)}`], kept as
    its two components. *)
Definition TaskId : Type := (nat * Z)%type.

Definition TaskId_eqb (a b : TaskId) : bool :=
  Nat.eqb (fst a) (fst b) && Z.eqb (snd a) (snd b).

Lemma TaskId_eqb_refl (a : TaskId) : TaskId_eqb a a = true.
Proof. unfold TaskId_eqb; rewrite Nat.eqb_refl, Z.eqb_refl; reflexivity. Qed.

Lemma TaskId_eqb_spec (a b : TaskId) : reflect (a = b) (TaskId_eqb a b).
Proof.
  destruct a as [n z], b as [n' z']; unfold TaskId_eqb; simpl.
  destruct (Nat.eqb_spec n n'), (Z.eqb_spec z z'); constructor; congruence.
Qed.

(** Lines of the captured transcript [logs]; each constructor is one of the
    template strings the context writes. *)
Inductive LogLine :=
| LText (s : string)                                (* log(s) *)
| LWarn (s : string)                                (* `[warn] ${s}` *)
| LProgress (action : string) (msg : option string) (* `[Progress] ${action}: ${message || ''}` *)
| LCheckpoint (n : nat) (reason : string)           (* `[Checkpoint ${n}] ${reason}` *)
| LNewInstructions (s : string)                     (* `[New Instructions] ${s}` *)
| LCheckpointError (msg : option string).           (* `[Checkpoint Error] ${error.message}` *)

(** The private fields of a [TaskContext].  [listening] stands for
    [stateListener !== null]; the world snapshots it keeps are read only by
    the differ and are not part of this model. *)
Record TaskContext := mkCtx {
  ctx_taskId : TaskId;
  ctx_status : CtxStatus;
  ctx_currentAction : string;
  ctx_checkpointCount : nat;
  ctx_progressReports : list TaskProgress;
  ctx_logs : list LogLine;
  ctx_abortReason : option string;
  ctx_lastProgressReport : Z;
  ctx_listening : bool
}.

(** The constructor: status [running], action ["initializing"]. *)
Definition newTaskContext (tid : TaskId) : TaskContext :=
  mkCtx tid CRunning "initializing" 0 [] [] None 0 true.

(** [TaskStatus] as returned by [getStatus()] (times, diffs and the
    formatted world state are left out). *)
Record TaskStatus := mkStatus {
  ts_taskId : TaskId;
  ts_status : CtxStatus;
  ts_currentAction : string;
  ts_checkpointCount : nat;
  ts_lastCheckpointTime : Z;
  ts_progressReports : list TaskProgress;
  ts_error : option string
}.

(** [l.slice(-n)] *)
Definition slice_last {A : Type} (n : nat) (l : list A) : list A :=
  skipn (length l - n) l.

Definition getStatus (c : TaskContext) : TaskStatus :=
  mkStatus (ctx_taskId c) (ctx_status c) (ctx_currentAction c) (ctx_checkpointCount c)
           (ctx_lastProgressReport c) (slice_last 10 (ctx_progressReports c))
           (ctx_abortReason c).

Definition ctx_with_status (c : TaskContext) (s : CtxStatus) : TaskContext :=
  mkCtx (ctx_taskId c) s (ctx_currentAction c) (ctx_checkpointCount c)
        (ctx_progressReports c) (ctx_logs c) (ctx_abortReason c)
        (ctx_lastProgressReport c) (ctx_listening c).

(** [log(...)] and [warn(...)] *)
Definition ctx_log (c : TaskContext) (l : LogLine) : TaskContext :=
  mkCtx (ctx_taskId c) (ctx_status c) (ctx_currentAction c) (ctx_checkpointCount c)
        (ctx_progressReports c) (ctx_logs c ++ [l]) (ctx_abortReason c)
        (ctx_lastProgressReport c) (ctx_listening c).

(** The context's own part of [reportProgress(p)]: push the report, stamp
    [lastProgressReport] and log it.  The call of [onProgress] in between is
    made by the caller (see [report] below). *)
Definition ctx_reportProgress (c : TaskContext) (p : TaskProgress) (now : Z) : TaskContext :=
  mkCtx (ctx_taskId c) (ctx_status c) (ctx_currentAction c) (ctx_checkpointCount c)
        (ctx_progressReports c ++ [p]) (ctx_logs c ++ [LProgress (pr_action p) (pr_message p)])
        (ctx_abortReason c) now (ctx_listening c).

(** [setAction(a)]: the action, then a [starting] report. *)
Definition ctx_setCurrentAction (c : TaskContext) (a : string) : TaskContext :=
  mkCtx (ctx_taskId c) (ctx_status c) a (ctx_checkpointCount c)
        (ctx_progressReports c) (ctx_logs c) (ctx_abortReason c)
        (ctx_lastProgressReport c) (ctx_listening c).

Definition setAction_report (a : string) : TaskProgress :=
  mkProgress a PStarting (Some ("Starting: " ++ a)%string).

(** [complete(result)] / [fail(error)]: the status, then a final report. *)
Definition complete_report (c : TaskContext) : TaskProgress :=
  mkProgress (ctx_currentAction c) PCompleted (Some "Task completed"%string).

Definition fail_report (c : TaskContext) (err : string) : TaskProgress :=
  mkProgress (ctx_currentAction c) PFailed (Some err).

Definition ctx_fail_status (c : TaskContext) (err : string) : TaskContext :=
  mkCtx (ctx_taskId c) CFailed (ctx_currentAction c) (ctx_checkpointCount c)
        (ctx_progressReports c) (ctx_logs c) (Some err)
        (ctx_lastProgressReport c) (ctx_listening c).

(** [cleanup()] *)
Definition ctx_cleanup (c : TaskContext) : TaskContext :=
  mkCtx (ctx_taskId c) (ctx_status c) (ctx_currentAction c) (ctx_checkpointCount c)
        (ctx_progressReports c) (ctx_logs c) (ctx_abortReason c)
        (ctx_lastProgressReport c) false.

(** The part of [checkpoint(reason)] before the handler is awaited: count,
    log, and the status snapshot marked [paused]. *)
Definition checkpoint_begin (c : TaskContext) (reason : string) : TaskContext * TaskStatus :=
  let n := S (ctx_checkpointCount c) in
  let c1 := mkCtx (ctx_taskId c) (ctx_status c) (ctx_currentAction c) n
                  (ctx_progressReports c) (ctx_logs c ++ [LCheckpoint n reason])
                  (ctx_abortReason c) (ctx_lastProgressReport c) (ctx_listening c) in
  let st := getStatus c1 in
  (c1, mkStatus (ts_taskId st) CPaused (ts_currentAction st) (ts_checkpointCount st)
                (ts_lastCheckpointTime st) (ts_progressReports st) (ts_error st)).

(** JavaScript truthiness of an optional string. *)
Definition truthy (s : option string) : option string :=
  match s with Some EmptyString | None => None | Some s => Some s end.

(** The part of [checkpoint] after [await this.onCheckpoint(status)]
    produced [result]. *)
Definition checkpoint_resume (c : TaskContext) (r : CheckpointResult) : TaskContext :=
  if cr_abort r then
    mkCtx (ctx_taskId c) CAborted (ctx_currentAction c) (ctx_checkpointCount c)
          (ctx_progressReports c) (ctx_logs c)
          (Some (match truthy (cr_abortReason r) with
                 | Some s => s | None => "Aborted by supervisor"%string end))
          (ctx_lastProgressReport c) (ctx_listening c)
  else
    match truthy (cr_newInstructions r) with
    | Some s => ctx_log c (LNewInstructions s)
    | None => c
    end.

(** [shouldContinue()] *)
Definition shouldContinue (c : TaskContext) : bool := CtxStatus_eqb (ctx_status c) CRunning.

(** *** A registered checkpoint handler that may raise *)

(** A value thrown by the handler (or carried by its rejected promise). *)
Inductive JsThrown :=
| ThUndefined
| ThNull
| ThError (message : string)   (* an [Error] object *)
| ThString (s : string).       (* a thrown primitive string *)

(** How the handler's call settled. *)
Inductive HandlerOutcome :=
| HResolve (r : CheckpointResult)
| HReject (v : JsThrown).

(** How [checkpoint(reason)] settles for its caller. *)
Inductive CheckpointOutcome :=
| Returned (r : CheckpointResult)
| Raised (v : JsThrown).

(** [error.message]: a [TypeError] on [undefined] and [null], the message of
    an [Error], [undefined] on a string. *)
Definition read_message (v : JsThrown) : JsThrown + option string :=
  match v with
  | ThUndefined => inl (ThError "Cannot read properties of undefined (reading 'message')"%string)
  | ThNull => inl (ThError "Cannot read properties of null (reading 'message')"%string)
  | ThError m => inr (Some m)
  | ThString _ => inr None
  end.

(** [checkpoint(reason)] with [onCheckpoint] registered or not; the handler
    is given the paused status snapshot. *)
Definition ctx_checkpoint (c : TaskContext) (reason : string)
  (onCheckpoint : option (TaskStatus -> HandlerOutcome)) : TaskContext * CheckpointOutcome :=
  let '(c1, st) := checkpoint_begin c reason in
  match onCheckpoint with
  | None => (c1, Returned (mkResult true None false None))
  | Some h =>
      match h st with
      | HResolve r => (checkpoint_resume c1 r, Returned r)
      | HReject v =>
          (* catch (error) { this.log(`[Checkpoint Error] ${error.message}`); ... } *)
          match read_message v with
          | inr m => (ctx_log c1 (LCheckpointError m), Returned (mkResult true None false None))
          | inl e => (c1, Raised e)
          end
      end
  end.

(* ------------------------------------------------------------------ *)
(** ** Task manager ([TaskManager], src/unnamed/part_001) and the
       [run_task] harness of src/mcp/server.ts *)

(** [RunningTask['status']] *)
Inductive TaskState :=
| TRunning | TPaused | TAwaitingFeedback | TCompleted | TFailed | TAborted.

Definition TaskState_eqb (a b : TaskState) : bool :=
  match a, b with
  | TRunning, TRunning | TPaused, TPaused | TAwaitingFeedback, TAwaitingFeedback
  | TCompleted, TCompleted | TFailed, TFailed | TAborted, TAborted => true
  | _, _ => false
  end.

(** [pendingCheckpoint]: [pc_resolve] names the promise its [resolve]
    settles, i.e. the suspended checkpoint call (a frame, below). *)
Record PendingCheckpoint := mkPending {
  pc_reason : string;
  pc_status : TaskStatus;
  pc_resolve : nat
}.

(** [RunningTask]; [context] is the context stored under [t_id] in the
    machine's context store, [code] and the unused [logs] are left out. *)
Record RunningTask := mkTask {
  t_id : TaskId;
  t_botName : string;
  t_startTime : Z;
  t_description : string;
  t_status : TaskState;
  t_lastUpdate : Z;
  t_pending : option PendingCheckpoint;
  t_progressHistory : list TaskProgress
}.

(** Task bodies: the statements through which a body calls into its
    context. *)
Inductive Stmt :=
| SCheckpoint (reason : string)        (* await ctx.checkpoint(reason); *)
| SCheckpointNoAwait (reason : string) (* ctx.checkpoint(reason);  (promise dropped) *)
| SSetAction (a : string)              (* ctx.setAction(a); *)
| SReport (a : string) (msg : string)  (* ctx.reportProgress({ action: a, message: msg }); *)
| SLog (s : string)                    (* ctx.log(s); *)
| SReturnIfStopped                     (* if (!ctx.shouldContinue()) return; *)
| SThrow (msg : string).               (* throw new Error(msg); *)

Definition Body := list Stmt.

(** A checkpoint call suspended on [await this.onCheckpoint(status)]:
    its task, its [reason] argument, and what runs once it returns: the
    rest of the body when the body awaits it, nothing when the promise was
    dropped. *)
Record Frame := mkFrame {
  f_task : TaskId;
  f_reason : string;
  f_cont : option Body
}.

(** Microtasks: a settled checkpoint promise resumes its frame; the
    harness's [await fn(ctx, patterns)] resumes after the body returned or
    threw. *)
Inductive Job :=
| JResume (frame : nat) (r : CheckpointResult)
| JBodyReturned (tid : TaskId)
| JBodyThrew (tid : TaskId) (msg : string).

(** The process: the task table [tasks] (a [Map] in insertion order), the
    [taskCounter], the context objects (which outlive their table entry),
    the suspended checkpoint calls and the microtask queue. *)
Record Machine := mkMachine {
  m_tasks : list (TaskId * RunningTask);
  m_taskCounter : nat;
  m_contexts : list (TaskId * TaskContext);
  m_frames : list (nat * Frame);
  m_nextFrame : nat;
  m_jobs : list Job
}.

Definition emptyMachine : Machine := mkMachine [] 0 [] [] 0 [].

Definition set_tasks (m : Machine) (ts : list (TaskId * RunningTask)) : Machine :=
  mkMachine ts (m_taskCounter m) (m_contexts m) (m_frames m) (m_nextFrame m) (m_jobs m).

Definition set_contexts (m : Machine) (cs : list (TaskId * TaskContext)) : Machine :=
  mkMachine (m_tasks m) (m_taskCounter m) cs (m_frames m) (m_nextFrame m) (m_jobs m).

Definition enqueue (m : Machine) (j : Job) : Machine :=
  mkMachine (m_tasks m) (m_taskCounter m) (m_contexts m) (m_frames m) (m_nextFrame m)
            (m_jobs m ++ [j]).

Definition get_task (m : Machine) (tid : TaskId) : option RunningTask :=
  JsMap.get TaskId_eqb (m_tasks m) tid.

Definition get_ctx (m : Machine) (tid : TaskId) : option TaskContext :=
  JsMap.get TaskId_eqb (m_contexts m) tid.

Definition update_task (m : Machine) (tid : TaskId) (f : RunningTask -> RunningTask) : Machine :=
  match get_task m tid with
  | Some t => set_tasks m (JsMap.set TaskId_eqb (m_tasks m) tid (f t))
  | None => m
  end.

Definition update_ctx (m : Machine) (tid : TaskId) (f : TaskContext -> TaskContext) : Machine :=
  match get_ctx m tid with
  | Some c => set_contexts m (JsMap.set TaskId_eqb (m_contexts m) tid (f c))
  | None => m
  end.

Definition task_with (t : RunningTask) (st : TaskState) (now : Z)
  (p : option PendingCheckpoint) : RunningTask :=
  mkTask (t_id t) (t_botName t) (t_startTime t) (t_description t) st now p
         (t_progressHistory t).

(** The [onProgress] handler [startTask] registers:
    [task.progressHistory.push(progress); task.lastUpdate = Date.now()]. *)
Definition onProgress (t : RunningTask) (p : TaskProgress) (now : Z) : RunningTask :=
  mkTask (t_id t) (t_botName t) (t_startTime t) (t_description t) (t_status t) now
         (t_pending t) (t_progressHistory t ++ [p]).

(** [ctx.reportProgress(p)] of the context of task [tid]. *)
Definition report (m : Machine) (tid : TaskId) (p : TaskProgress) (now : Z) : Machine :=
  update_task (update_ctx m tid (fun c => ctx_reportProgress c p now)) tid
              (fun t => onProgress t p now).

Definition setAction (m : Machine) (tid : TaskId) (a : string) (now : Z) : Machine :=
  report (update_ctx m tid (fun c => ctx_setCurrentAction c a)) tid (setAction_report a) now.

(** [completeTask(taskId)]: status, [context.complete()], [context.cleanup()]. *)
Definition completeTask (m : Machine) (tid : TaskId) (now : Z) : Machine :=
  match get_task m tid, get_ctx m tid with
  | Some _, Some c =>
      let m1 := update_task m tid (fun t => task_with t TCompleted now (t_pending t)) in
      let m2 := update_ctx m1 tid (fun c => ctx_with_status c CCompleted) in
      let m3 := report m2 tid (complete_report c) now in
      update_ctx m3 tid ctx_cleanup
  | _, _ => m
  end.

(** [failTask(taskId, error)] *)
Definition failTask (m : Machine) (tid : TaskId) (err : string) (now : Z) : Machine :=
  match get_task m tid, get_ctx m tid with
  | Some _, Some c =>
      let m1 := update_task m tid (fun t => task_with t TFailed now (t_pending t)) in
      let m2 := update_ctx m1 tid (fun c => ctx_fail_status c err) in
      let m3 := report m2 tid (fail_report c err) now in
      update_ctx m3 tid ctx_cleanup
  | _, _ => m
  end.

(** [handleCheckpoint(taskId, status)] for the checkpoint call [frame]: an
    unknown task settles the promise at once; otherwise the task waits for
    feedback with a pending record whose [reason] is [status.currentAction]. *)
Definition handleCheckpoint (m : Machine) (tid : TaskId) (st : TaskStatus) (now : Z)
  (frame : nat) : Machine :=
  match get_task m tid with
  | None => enqueue m (JResume frame (mkResult false None true (Some "Task not found"%string)))
  | Some _ =>
      update_task m tid (fun t =>
        task_with t TAwaitingFeedback now (Some (mkPending (ts_currentAction st) st frame)))
  end.

(** [ctx.checkpoint(reason)] up to its suspension, with the manager's
    [onCheckpoint]; [cont] is what runs when it returns. *)
Definition checkpoint_call (m : Machine) (tid : TaskId) (reason : string)
  (cont : option Body) (now : Z) : Machine :=
  match get_ctx m tid with
  | None => m
  | Some c =>
      let '(c1, st) := checkpoint_begin c reason in
      let k := m_nextFrame m in
      let m1 := mkMachine (m_tasks m) (m_taskCounter m)
                          (JsMap.set TaskId_eqb (m_contexts m) tid c1)
                          (JsMap.set Nat.eqb (m_frames m) k (mkFrame tid reason cont))
                          (S k) (m_jobs m) in
      handleCheckpoint m1 tid st now k
  end.

(** Runs a body synchronously until it suspends on an awaited checkpoint,
    returns or throws. *)
Fixpoint run_body (m : Machine) (tid : TaskId) (b : Body) (now : Z) : Machine :=
  match b with
  | [] => enqueue m (JBodyReturned tid)
  | SCheckpoint r :: rest => checkpoint_call m tid r (Some rest) now
  | SCheckpointNoAwait r :: rest => run_body (checkpoint_call m tid r None now) tid rest now
  | SSetAction a :: rest => run_body (setAction m tid a now) tid rest now
  | SReport a msg :: rest =>
      run_body (report m tid (mkProgress a PInProgress (Some msg)) now) tid rest now
  | SLog s :: rest => run_body (update_ctx m tid (fun c => ctx_log c (LText s))) tid rest now
  | SReturnIfStopped :: rest =>
      match get_ctx m tid with
      | Some c => if shouldContinue c then run_body m tid rest now
                  else enqueue m (JBodyReturned tid)
      | None => run_body m tid rest now
      end
  | SThrow msg :: _ => enqueue m (JBodyThrew tid msg)
  end.

Definition remove_frame (m : Machine) (k : nat) : Machine :=
  mkMachine (m_tasks m) (m_taskCounter m) (m_contexts m)
            (JsMap.delete Nat.eqb (m_frames m) k) (m_nextFrame m) (m_jobs m).

(** One microtask.  A resumed checkpoint call finishes ([checkpoint_resume])
    and returns to the body if the body awaits it; the harness completes
    the task when the body returned, and fails it when the body threw unless
    the task is awaiting feedback. *)
Definition process_job (m : Machine) (j : Job) (now : Z) : Machine :=
  match j with
  | JResume k r =>
      match JsMap.get Nat.eqb (m_frames m) k with
      | None => m
      | Some f =>
          let m1 := update_ctx (remove_frame m k) (f_task f) (fun c => checkpoint_resume c r) in
          match f_cont f with
          | Some rest => run_body m1 (f_task f) rest now
          | None => m1
          end
      end
  | JBodyReturned tid => completeTask m tid now
  | JBodyThrew tid msg =>
      match get_task m tid with
      | Some t => if TaskState_eqb (t_status t) TAwaitingFeedback then m
                  else failTask m tid msg now
      | None => failTask m tid msg now
      end
  end.

Definition pop_job (m : Machine) : option (Job * Machine) :=
  match m_jobs m with
  | [] => None
  | j :: js => Some (j, mkMachine (m_tasks m) (m_taskCounter m) (m_contexts m)
                                  (m_frames m) (m_nextFrame m) js)
  end.

(** The microtask queue, drained in order. *)
Fixpoint drain (fuel : nat) (m : Machine) (now : Z) : Machine :=
  match fuel with
  | O => m
  | S f =>
      match pop_job m with
      | None => m
      | Some (j, m1) => drain f (process_job m1 j now) now
      end
  end.

Definition settle (m : Machine) (now : Z) : Machine := drain 1000 m now.

(** [run_task]: [startTask] registers the task and its context, then the
    harness invokes the body once. *)
Definition run_task (m : Machine) (botName description : string) (body : Body) (now : Z)
  : Machine * TaskId :=
  let tid := (S (m_taskCounter m), now) in
  let t := mkTask tid botName now description TRunning now None [] in
  let m1 := mkMachine (JsMap.set TaskId_eqb (m_tasks m) tid t) (S (m_taskCounter m))
                      (JsMap.set TaskId_eqb (m_contexts m) tid (newTaskContext tid))
                      (m_frames m) (m_nextFrame m) (m_jobs m) in
  (settle (run_body m1 tid body now) now, tid).

Inductive TaskError := TaskNotFound | TaskNotPaused.

(** [continueTask(taskId, instructions)] *)
Definition continueTask (m : Machine) (tid : TaskId) (instructions : option string) (now : Z)
  : Machine * (TaskError + CheckpointResult) :=
  match get_task m tid with
  | None => (m, inl TaskNotFound)
  | Some t =>
      match t_pending t with
      | None => (m, inl TaskNotPaused)
      | Some pc =>
          let r := mkResult true instructions false None in
          let m1 := enqueue m (JResume (pc_resolve pc) r) in
          (update_task m1 tid (fun t => task_with t TRunning now None), inr r)
      end
  end.

(** [abortTask(taskId, reason)] *)
Definition abortTask (m : Machine) (tid : TaskId) (reason : option string) (now : Z)
  : Machine * option TaskError :=
  match get_task m tid with
  | None => (m, Some TaskNotFound)
  | Some t =>
      let m1 := match t_pending t with
                | Some pc =>
                    enqueue m (JResume (pc_resolve pc)
                      (mkResult false None true
                         (Some (match truthy reason with
                                | Some s => s | None => "Task aborted by user"%string end))))
                | None => m
                end in
      let m2 := update_task m1 tid (fun t => task_with t TAborted now None) in
      (update_ctx m2 tid ctx_cleanup, None)
  end.

(** [cleanup(maxAgeMs)]: one pass over the table's entries, deleting the
    entries that are old enough and neither running nor awaiting feedback. *)
Definition evictable (now maxAge : Z) (t : RunningTask) : bool :=
  (maxAge <? now - t_lastUpdate t)
  && negb (TaskState_eqb (t_status t) TRunning)
  && negb (TaskState_eqb (t_status t) TAwaitingFeedback).

Definition cleanup_step (now maxAge : Z) (acc : Machine * nat) (e : TaskId * RunningTask)
  : Machine * nat :=
  let '(m, cleaned) := acc in
  let '(id, t) := e in
  if evictable now maxAge t then
    (set_tasks (update_ctx m id ctx_cleanup) (JsMap.delete TaskId_eqb (m_tasks m) id),
     S cleaned)
  else acc.

Definition cleanup (now maxAge : Z) (m : Machine) : Machine * nat :=
  fold_left (cleanup_step now maxAge) (m_tasks m) (m, 0%nat).

(** The operations of the controller, each followed by the microtasks it
    releases. *)
Definition continue_op (m : Machine) (tid : TaskId) (instructions : option string) (now : Z)
  : Machine * (TaskError + CheckpointResult) :=
  let '(m1, r) := continueTask m tid instructions now in (settle m1 now, r).

Definition abort_op (m : Machine) (tid : TaskId) (reason : option string) (now : Z)
  : Machine * option TaskError :=
  let '(m1, r) := abortTask m tid reason now in (settle m1 now, r).

(** Observations of a task in the table. *)
Definition status_of (m : Machine) (tid : TaskId) : option TaskState :=
  option_map t_status (get_task m tid).

Definition pending_of (m : Machine) (tid : TaskId) : option PendingCheckpoint :=
  match get_task m tid with Some t => t_pending t | None => None end.

Definition history_of (m : Machine) (tid : TaskId) : list TaskProgress :=
  match get_task m tid with Some t => t_progressHistory t | None => [] end.

Definition frame_of (m : Machine) (k : nat) : option Frame :=
  JsMap.get Nat.eqb (m_frames m) k.

Definition is_final_report (p : TaskProgress) : bool :=
  match pr_status p with PCompleted | PFailed => true | _ => false end.

(** Sequences of controller operations ([run_task], [continue_task],
    [abort_task] and [TaskManager.cleanup]), each run to quiescence. *)
Inductive ControllerOp :=
| OpRunTask (botName description : string) (body : Body) (now : Z)
| OpContinue (tid : TaskId) (instructions : option string) (now : Z)
| OpAbort (tid : TaskId) (reason : option string) (now : Z)
| OpCleanup (now maxAge : Z).

Definition exec_op (m : Machine) (op : ControllerOp) : Machine :=
  match op with
  | OpRunTask botName description body now => fst (run_task m botName description body now)
  | OpContinue tid instructions now => fst (continue_op m tid instructions now)
  | OpAbort tid reason now => fst (abort_op m tid reason now)
  | OpCleanup now maxAge => fst (cleanup now maxAge m)
  end.

Definition exec_ops (m : Machine) (ops : list ControllerOp) : Machine :=
  fold_left exec_op ops m.

(** Every context in the store carries an id the counter has already
    issued, so [generateTaskId] never reuses one. *)
Definition ids_issued (m : Machine) : Prop :=
  forall tid, In tid (map fst (m_contexts m)) -> (fst tid <= m_taskCounter m)%nat.

(** The progress reports of each context of [m] are a prefix of those of
    the same context in [m']. *)
Definition reports_extend (m m' : Machine) : Prop :=
  forall tid c, get_ctx m tid = Some c ->
    exists c' later, get_ctx m' tid = Some c'
                     /\ ctx_progressReports c' = ctx_progressReports c ++ later.

(** [reports_extend], with no new context and the same counter. *)
Definition ctx_grows (m m' : Machine) : Prop :=
  reports_extend m m'
  /\ (forall tid, In tid (map fst (m_contexts m')) -> In tid (map fst (m_contexts m)))
  /\ m_taskCounter m' = m_taskCounter m.

(** A context method that only appends to [progressReports]. *)
Definition appends_reports (f : TaskContext -> TaskContext) : Prop :=
  forall c, exists later, ctx_progressReports (f c) = ctx_progressReports c ++ later.

Definition demo_task (tid : TaskId) (st : TaskState) (lastUpdate : Z) : RunningTask :=
  mkTask tid "bot" 0 "demo" st lastUpdate None [].

(** A table with an old running task, an old completed task, a recent
    failed task and an old task awaiting feedback. *)
Definition cleanup_demo : Machine :=
  mkMachine [((1%nat, 0), demo_task (1%nat, 0) TRunning 0);
             ((2%nat, 0), demo_task (2%nat, 0) TCompleted 0);
             ((3%nat, 0), demo_task (3%nat, 0) TFailed 4500);
             ((4%nat, 0), demo_task (4%nat, 0) TAwaitingFeedback 0)]
            4 [] [] 0 [].

(* ------------------------------------------------------------------ *)
(** ** Further definitions used by the additional properties *)

(** The total count of the stacks of item [id] (statement helper). *)
Definition id_total (items : list InventoryItem) (id : Z) : Z :=
  fold_right (fun it s => if item_id it =? id then item_count it + s else s) 0 items.

Definition gained_part (Bi : list (Z * InvEntry)) (e : Z * InvEntry) : list InvEntry :=
  match JsMap.get Z.eqb Bi (fst e) with None => [snd e] | Some _ => [] end.

Definition up_part (Bi : list (Z * InvEntry)) (e : Z * InvEntry) : list InvChange :=
  match JsMap.get Z.eqb Bi (fst e) with
  | Some b => if e_count b <? e_count (snd e)
              then [mkInvChange (e_name (snd e)) (e_count (snd e)) (e_id (snd e))
                                (e_count b) (e_count (snd e))]
              else []
  | None => []
  end.

Definition lost_part (Ai : list (Z * InvEntry)) (e : Z * InvEntry) : list InvEntry :=
  match JsMap.get Z.eqb Ai (fst e) with None => [snd e] | Some _ => [] end.

Definition down_part (Ai : list (Z * InvEntry)) (e : Z * InvEntry) : list InvChange :=
  match JsMap.get Z.eqb Ai (fst e) with
  | Some a => if e_count a <? e_count (snd e)
              then [mkInvChange (e_name (snd e)) (e_count (snd e)) (e_id (snd e))
                                (e_count (snd e)) (e_count a)]
              else []
  | None => []
  end.

(** Every task waiting for feedback holds a pending-checkpoint record. *)
Definition awaiting_pending (m : Machine) : Prop :=
  forall tid t, In (tid, t) (m_tasks m) -> t_status t = TAwaitingFeedback -> t_pending t <> None.

Definition keeps_pending (m m' : Machine) : Prop := awaiting_pending m -> awaiting_pending m'.

Definition task_ok (t : RunningTask) : Prop :=
  t_status t = TAwaitingFeedback -> t_pending t <> None.

(** What the [continue_task] tool handler answers; the text it renders
    after the task resumed is not modelled. *)
Inductive ContinueReply :=
| CRMissingId                    (* errorResponse('task_id is required') *)
| CRNotFound                     (* errorResponse(`Task ${taskId} not found`) *)
| CRNotPaused (st : TaskState)   (* errorResponse(`... is not paused (status: ${task.status})`) *)
| CRError (e : TaskError)        (* catch (error) { return errorResponse(error.message) } *)
| CRResumed (r : CheckpointResult).

(** The [continue_task] case of the server's tool handler: the checks on
    the arguments and on the task's status, then [continueTask] and the
    wait in which the released microtasks run. *)
Definition continue_task_handler (m : Machine) (taskId : option TaskId)
  (instructions : option string) (now : Z) : Machine * ContinueReply :=
  match taskId with
  | None => (m, CRMissingId)
  | Some tid =>
      match get_task m tid with
      | None => (m, CRNotFound)
      | Some t =>
          if negb (TaskState_eqb (t_status t) TAwaitingFeedback) then (m, CRNotPaused (t_status t))
          else
            match continue_op m tid instructions now with
            | (m', inl e) => (m', CRError e)
            | (m', inr r) => (m', CRResumed r)
            end
      end
  end.

(** [String(n)] of an integer: the decimal digits, with a leading [-] for a
    negative number; [fuel] bounds the number of digits. *)
Definition digit_char (d : Z) : ascii := ascii_of_nat (48 + Z.to_nat d).

Fixpoint digits_fuel (fuel : nat) (n : Z) (acc : string) : string :=
  match fuel with
  | O => acc
  | S f =>
      let acc' := String (digit_char (n mod 10)) acc in
      if n <? 10 then acc' else digits_fuel f (n / 10) acc'
  end.

Definition z_to_string (n : Z) : string :=
  let a := Z.abs n in
  let ds := digits_fuel (S (Z.to_nat (Z.log2 a))) a EmptyString in
  if n <? 0 then String "-" ds else ds.

(** The text of a summary line, as its template string renders it;
    [`${after.shop?.title}`] of an absent shop is ["undefined"]. *)
Definition summary_text (l : SummaryLine) : string :=
  match l with
  | SInvPlus n name => "+" ++ z_to_string n ++ " " ++ name
  | SInvMinus n name => "-" ++ z_to_string n ++ " " ++ name
  | SLevelUp name level => "LEVEL UP! " ++ name ++ " -> " ++ z_to_string level
  | SXp n name => "+" ++ z_to_string n ++ " " ++ name ++ " XP"
  | STook n => "Took " ++ z_to_string n ++ " damage"
  | SDealt n => "Dealt " ++ z_to_string n ++ " damage"
  | SKilled n => "Killed " ++ z_to_string n ++ " target(s)"
  | SMoved n => "Moved " ++ z_to_string n ++ " tiles"
  | SDialogOpened => "Dialog opened"
  | SDialogClosed => "Dialog closed"
  | SShopOpened title =>
      "Shop opened: " ++ match title with Some t => t | None => "undefined" end
  | SShopClosed => "Shop closed"
  | SDied name => name ++ " died"
  end%string.

Definition newline : string := String (ascii_of_nat 10) EmptyString.

(** [formatStateDiff(diff)] *)
Definition formatStateDiff (d : StateDiff) : string :=
  match summary d with
  | [] => "(no significant changes)"%string
  | _ =>
      String.concat newline
        (("Changes over " ++ z_to_string (tick_elapsed d) ++ " ticks:")%string
         :: map (fun item => "  - " ++ summary_text item)%string (summary d)
         ++ match messages d with
            | [] => []
            | _ => "Messages:"%string
                   :: map (fun msg => "  > " ++ msg)%string (slice_last 3 (messages d))
            end)
  end.


(** Sum of the damage of the events of one type. *)
Definition damage_of (ty : string) (evs : list CombatEvent) : Z :=
  fold_right (fun e s => if String.eqb (evt_type e) ty then evt_damage e + s else s) 0 evs.

Definition count_of (ty : string) (evs : list CombatEvent) : Z :=
  fold_right (fun e s => if String.eqb (evt_type e) ty then 1 + s else s) 0 evs.

(** No new key in the task table, and the same counter. *)
Definition tasks_shrink (m m' : Machine) : Prop :=
  (forall tid, In tid (map fst (m_tasks m')) -> In tid (map fst (m_tasks m)))
  /\ m_taskCounter m' = m_taskCounter m.

(** Every id in the task table was issued by the counter. *)
Definition tasks_issued (m : Machine) : Prop :=
  forall tid, In tid (map fst (m_tasks m)) -> (fst tid <= m_taskCounter m)%nat.

(* ------------------------------------------------------------------ *)
(** ** Lemmas on the [Map] model *)

Module JsMapFacts.
Section Facts.
Context {K V : Type} (keq : K -> K -> bool).
Hypothesis keq_spec : forall a b, reflect (a = b) (keq a b).

Lemma get_set_same (m : list (K * V)) k v : JsMap.get keq (JsMap.set keq m k v) k = Some v.
Proof.
  induction m as [|[k' v'] r IH]; simpl.
  - destruct (keq_spec k k); congruence.
  - destruct (keq_spec k' k) as [->|Hne]; simpl.
    + destruct (keq_spec k k); congruence.
    + destruct (keq_spec k' k); [congruence|exact IH].
Qed.

Lemma get_set_other (m : list (K * V)) k k' v :
  k <> k' -> JsMap.get keq (JsMap.set keq m k v) k' = JsMap.get keq m k'.
Proof.
  intros Hne; induction m as [|[k0 v0] r IH]; simpl.
  - destruct (keq_spec k k'); congruence.
  - destruct (keq_spec k0 k) as [->|H0]; simpl.
    + destruct (keq_spec k k'); congruence.
    + rewrite IH; reflexivity.
Qed.

Lemma has_In (m : list (K * V)) k :
  JsMap.has keq m k = true <-> In k (map fst m).
Proof.
  unfold JsMap.has; induction m as [|[k' v'] r IH]; simpl.
  - split; [discriminate|tauto].
  - destruct (keq_spec k' k) as [->|Hne].
    + tauto.
    + rewrite IH; intuition congruence.
Qed.

Lemma set_keys (m : list (K * V)) k v k' :
  In k' (map fst (JsMap.set keq m k v)) <-> k' = k \/ In k' (map fst m).
Proof.
  induction m as [|[k0 v0] r IH]; simpl.
  - intuition.
  - destruct (keq_spec k0 k) as [->|Hne]; simpl.
    + intuition.
    + rewrite IH; intuition.
Qed.

Lemma set_NoDup (m : list (K * V)) k v :
  NoDup (map fst m) -> NoDup (map fst (JsMap.set keq m k v)).
Proof.
  induction m as [|[k0 v0] r IH]; simpl; intros Hnd.
  - constructor; [simpl; tauto|constructor].
  - inversion Hnd as [|? ? Hnin Hnd']; subst.
    destruct (keq_spec k0 k) as [->|Hne]; simpl.
    + constructor; assumption.
    + constructor; [|exact (IH Hnd')].
      rewrite set_keys; intuition congruence.
Qed.

Lemma In_get (m : list (K * V)) k v :
  NoDup (map fst m) -> In (k, v) m -> JsMap.get keq m k = Some v.
Proof.
  induction m as [|[k0 v0] r IH]; simpl; intros Hnd Hin; [contradiction|].
  inversion Hnd as [|? ? Hnin Hnd']; subst.
  destruct Hin as [Heq|Hin].
  - inversion Heq; subst. destruct (keq_spec k k); congruence.
  - destruct (keq_spec k0 k) as [->|Hne].
    + exfalso; apply Hnin; change k with (fst (k, v)); apply in_map; exact Hin.
    + exact (IH Hnd' Hin).
Qed.

(** Maps built by [for (const x of xs) m.set(f(x), x)]. *)
Section Index.
Context {A : Type} (f : A -> K) (g : A -> V).

Definition index (xs : list A) (m : list (K * V)) : list (K * V) :=
  fold_left (fun m x => JsMap.set keq m (f x) (g x)) xs m.

Lemma index_keys xs m k :
  In k (map fst (index xs m)) <-> In k (map f xs) \/ In k (map fst m).
Proof.
  revert m; induction xs as [|x r IH]; intros m; simpl.
  - tauto.
  - unfold index in *; simpl; rewrite IH, set_keys; intuition.
Qed.

Lemma index_get_notin xs m k :
  ~ In k (map f xs) -> JsMap.get keq (index xs m) k = JsMap.get keq m k.
Proof.
  revert m; induction xs as [|x r IH]; intros m Hn; simpl; [reflexivity|].
  unfold index in *; simpl; rewrite IH by (simpl in Hn; tauto).
  apply get_set_other; simpl in Hn; intuition.
Qed.

Lemma index_get xs m x :
  NoDup (map f xs) -> In x xs -> JsMap.get keq (index xs m) (f x) = Some (g x).
Proof.
  revert m; induction xs as [|y r IH]; intros m Hnd Hin; [contradiction|].
  simpl in Hnd; inversion Hnd as [|? ? Hnin Hnd']; subst.
  destruct Hin as [->|Hin].
  - unfold index; simpl. fold (index r (JsMap.set keq m (f x) (g x))).
    rewrite index_get_notin by exact Hnin. apply get_set_same.
  - exact (IH _ Hnd' Hin).
Qed.
End Index.
End Facts.
End JsMapFacts.

Lemma fold_left_fixed {A B : Type} (step : A -> B -> A) (l : list B) (a : A) :
  (forall b, In b l -> step a b = a) -> fold_left step l a = a.
Proof.
  induction l as [|b r IH]; simpl; intros H; [reflexivity|].
  rewrite H by (left; reflexivity). apply IH; intros; apply H; right; assumption.
Qed.

Lemma group_items_NoDup_acc items m :
  NoDup (map fst m) -> NoDup (map fst (fold_left group_step items m)).
Proof.
  revert m; induction items as [|it r IH]; intros m Hnd; simpl; [exact Hnd|].
  apply IH; unfold group_step.
  destruct (JsMap.get Z.eqb m (item_id it));
    apply (JsMapFacts.set_NoDup Z.eqb Z.eqb_spec); exact Hnd.
Qed.

Lemma group_items_NoDup items : NoDup (map fst (group_items items)).
Proof. apply group_items_NoDup_acc; constructor. Qed.

Lemma group_items_self_get items id item :
  In (id, item) (group_items items) ->
  JsMap.get Z.eqb (group_items items) id = Some item.
Proof.
  apply (JsMapFacts.In_get Z.eqb Z.eqb_spec); apply group_items_NoDup.
Qed.

Lemma skill_map_index ss :
  skill_map ss = JsMapFacts.index String.eqb skill_name (fun s => s) ss [].
Proof. reflexivity. Qed.

Lemma npc_map_index ns :
  npc_map ns = JsMapFacts.index Z.eqb npc_index (fun n => n) ns [].
Proof. reflexivity. Qed.

(** *** The differ on a snapshot and itself, section by section *)

Lemma diff_inventory_self S : diff_inventory S S = mkInvPart [] [] [] [].
Proof.
  unfold diff_inventory.
  rewrite (fold_left_fixed (gained_step (group_items (inventory S)))).
  - apply fold_left_fixed. intros [id item] Hin; unfold lost_step.
    rewrite (group_items_self_get _ _ _ Hin), Z.ltb_irrefl; reflexivity.
  - intros [id item] Hin; unfold gained_step.
    rewrite (group_items_self_get _ _ _ Hin), Z.ltb_irrefl; reflexivity.
Qed.

Lemma diff_skills_self S :
  NoDup (map skill_name (skills S)) -> diff_skills S S = ([], []).
Proof.
  intros Hnd; unfold diff_skills; apply fold_left_fixed; intros s Hin.
  unfold skill_step; rewrite skill_map_index.
  rewrite (JsMapFacts.index_get String.eqb String.eqb_spec skill_name (fun s => s))
    by assumption.
  rewrite Z.ltb_irrefl; reflexivity.
Qed.

Lemma filter_none {A : Type} (p : A -> bool) (l : list A) :
  (forall x, In x l -> p x = false) -> filter p l = [].
Proof.
  induction l as [|x r IH]; simpl; intros H; [reflexivity|].
  rewrite H by (left; reflexivity); apply IH; intros; apply H; right; assumption.
Qed.

Lemma diff_combat_self S :
  (forall evs, combatEvents S = Some evs -> Forall (fun e => evt_tick e <= tick S) evs) ->
  diff_combat S S = (mkCombat 0 0 0 0, []).
Proof.
  intros Hev; unfold diff_combat; rewrite Z.sub_diag.
  destruct (combatEvents S) as [evs|] eqn:E; [|reflexivity].
  rewrite filter_none; [reflexivity|].
  intros e Hin; apply Z.ltb_ge.
  specialize (Hev evs eq_refl); rewrite Forall_forall in Hev; exact (Hev e Hin).
Qed.

Lemma diff_position_self S : diff_position S S = (emptyPosition, []).
Proof.
  unfold diff_position; destruct (player S) as [p|]; [|reflexivity].
  rewrite !Z.sub_diag; reflexivity.
Qed.

Lemma diff_ui_self S : diff_ui S S = (emptyUi, []).
Proof.
  unfold diff_ui.
  destruct (dialog_isOpen S), (open_flag (interface_isOpen S)), (shop_open (shop S));
    reflexivity.
Qed.

Lemma diff_npcs_self S : diff_npcs S S = mkNpcPart [] [] [] [].
Proof.
  unfold diff_npcs; rewrite npc_map_index.
  set (m := JsMapFacts.index Z.eqb npc_index (fun n => n) (nearbyNpcs S) []).
  assert (Hhas : forall k, In k (map fst m) -> JsMap.has Z.eqb m k = true).
  { intros k Hk; apply (JsMapFacts.has_In Z.eqb Z.eqb_spec); exact Hk. }
  assert (Hgone : filter (fun e => negb (JsMap.has Z.eqb m (fst e))) m = []).
  { apply filter_none; intros [k v] Hin; simpl.
    rewrite Hhas; [reflexivity|].
    change k with (fst (k, v)); apply in_map; exact Hin. }
  rewrite Hgone.
  rewrite filter_none; [reflexivity|].
  intros n Hin; rewrite Hhas; [reflexivity|].
  unfold m; apply (proj2 (JsMapFacts.index_keys Z.eqb Z.eqb_spec npc_index (fun n => n) _ _ _)).
  left; apply in_map; exact Hin.
Qed.

Lemma diff_messages_self S :
  (forall ms, gameMessages S = Some ms -> Forall (fun m => msg_tick m <= tick S) ms) ->
  diff_messages S S = [].
Proof.
  intros Hm; unfold diff_messages.
  destruct (gameMessages S) as [ms|] eqn:E; [|reflexivity].
  rewrite filter_none; [reflexivity|].
  intros m Hin; apply Z.ltb_ge.
  specialize (Hm ms eq_refl); rewrite Forall_forall in Hm; exact (Hm m Hin).
Qed.

(** *** Summary lines produced by each section *)

Definition is_moved_line (l : SummaryLine) : bool :=
  match l with SMoved _ => true | _ => false end.

Lemma fold_left_invariant {A B : Type} (P : A -> Prop) (step : A -> B -> A) l a :
  P a -> (forall a b, P a -> P (step a b)) -> P (fold_left step l a).
Proof.
  revert a; induction l as [|b r IH]; simpl; intros a Ha Hs; [exact Ha|].
  apply IH; [apply Hs; exact Ha|exact Hs].
Qed.

Lemma Forall_app_single {A : Type} (P : A -> Prop) l x :
  Forall P l -> P x -> Forall P (l ++ [x]).
Proof. intros; apply Forall_app; split; [assumption|constructor; [assumption|constructor]]. Qed.

Lemma inventory_no_moved b a :
  Forall (fun l => is_moved_line l = false) (ip_summary (diff_inventory b a)).
Proof.
  unfold diff_inventory.
  apply fold_left_invariant.
  - apply fold_left_invariant; [constructor|].
    intros acc [id item] H; unfold gained_step.
    destruct (JsMap.get Z.eqb _ id) as [bi|]; simpl;
      [destruct (_ <? _)|]; simpl; try apply Forall_app_single; auto.
  - intros acc [id item] H; unfold lost_step.
    destruct (JsMap.get Z.eqb _ id) as [ai|]; simpl;
      [destruct (_ <? _)|]; simpl; try apply Forall_app_single; auto.
Qed.

Lemma skills_no_moved b a :
  Forall (fun l => is_moved_line l = false) (snd (diff_skills b a)).
Proof.
  unfold diff_skills; apply fold_left_invariant; [constructor|].
  intros acc s H; unfold skill_step.
  destruct (JsMap.get String.eqb _ _) as [bs|]; [|exact H].
  destruct (_ <? _); [|exact H]; simpl.
  apply Forall_app_single; [exact H|destruct (_ <? _); reflexivity].
Qed.

Lemma Forall_if_single {A : Type} (P : A -> Prop) (c : bool) (x : A) :
  P x -> Forall P (if c then [x] else []).
Proof. destruct c; intros; repeat constructor; assumption. Qed.

Lemma combat_no_moved b a :
  Forall (fun l => is_moved_line l = false) (snd (diff_combat b a)).
Proof.
  unfold diff_combat; simpl.
  repeat (rewrite Forall_app; split); apply Forall_if_single; reflexivity.
Qed.

Lemma ui_no_moved b a :
  Forall (fun l => is_moved_line l = false) (snd (diff_ui b a)).
Proof.
  unfold diff_ui; simpl.
  repeat (rewrite Forall_app; split); apply Forall_if_single; reflexivity.
Qed.

Lemma npcs_no_moved b a :
  Forall (fun l => is_moved_line l = false) (np_summary (diff_npcs b a)).
Proof.
  unfold diff_npcs; simpl. apply Forall_forall; intros x Hx.
  apply in_map_iff in Hx; destruct Hx as [e [<- _]]; reflexivity.
Qed.

(** The only [Moved] lines of the summary are those of the position section. *)
Lemma summary_moved_iff b a k :
  In (SMoved k) (summary (computeStateDiff b a)) <-> In (SMoved k) (snd (diff_position b a)).
Proof.
  change (summary (computeStateDiff b a)) with
    (ip_summary (diff_inventory b a) ++ snd (diff_skills b a) ++ snd (diff_combat b a)
     ++ snd (diff_position b a) ++ snd (diff_ui b a) ++ np_summary (diff_npcs b a)).
  assert (Hno : forall l, Forall (fun l => is_moved_line l = false) l -> ~ In (SMoved k) l).
  { intros l Hl Hin; rewrite Forall_forall in Hl; specialize (Hl _ Hin); discriminate. }
  pose proof (Hno _ (inventory_no_moved b a)) as H1.
  pose proof (Hno _ (skills_no_moved b a)) as H2.
  pose proof (Hno _ (combat_no_moved b a)) as H3.
  pose proof (Hno _ (ui_no_moved b a)) as H4.
  pose proof (Hno _ (npcs_no_moved b a)) as H5.
  rewrite !in_app_iff; tauto.
Qed.

(** [Math.round] of the square root: [round_sqrt n] is within one half of
    [sqrt n], written without reals as [(2d-1)^2 <= 4n < (2d+1)^2]. *)
Lemma round_sqrt_nearest n :
  0 < n -> (2 * round_sqrt n - 1) * (2 * round_sqrt n - 1) <= 4 * n
           < (2 * round_sqrt n + 1) * (2 * round_sqrt n + 1).
Proof.
  intros Hn; unfold round_sqrt.
  pose proof (Z.sqrt_spec n ltac:(lia)) as [Hlo Hhi].
  pose proof (Z.sqrt_nonneg n) as Hs.
  set (s := Z.sqrt n) in *.
  destruct (Z.ltb_spec s (n - s * s)); nia.
Qed.

(** *** Skills: the entries of [xpGained] *)

Definition skill_entry (beforeSkills : list (string * SkillState)) (skill : SkillState)
  : list XpGain :=
  match JsMap.get String.eqb beforeSkills (skill_name skill) with
  | Some beforeSkill =>
      if skill_experience beforeSkill <? skill_experience skill then
        let levelUp := skill_baseLevel beforeSkill <? skill_baseLevel skill in
        [mkXpGain (skill_name skill) (skill_experience skill - skill_experience beforeSkill)
                  levelUp (if levelUp then Some (skill_baseLevel skill) else None)]
      else []
  | None => []
  end.

Lemma diff_skills_entries_acc M l acc :
  fst (fold_left (skill_step M) l acc) = fst acc ++ flat_map (skill_entry M) l.
Proof.
  revert acc; induction l as [|s r IH]; intros acc; simpl.
  - rewrite app_nil_r; reflexivity.
  - rewrite IH, app_assoc; f_equal.
    unfold skill_step, skill_entry.
    destruct (JsMap.get String.eqb M (skill_name s)) as [b|]; simpl;
      [destruct (_ <? _)|]; simpl; rewrite ?app_nil_r; reflexivity.
Qed.

Lemma NoDup_map_same {A B : Type} (f : A -> B) l x y :
  NoDup (map f l) -> In x l -> In y l -> f x = f y -> x = y.
Proof.
  induction l as [|z r IH]; simpl; intros Hnd Hx Hy Hf; [contradiction|].
  inversion Hnd as [|? ? Hnin Hnd']; subst.
  destruct Hx as [<-|Hx], Hy as [<-|Hy]; auto.
  - exfalso; apply Hnin; rewrite Hf; apply in_map; exact Hy.
  - exfalso; apply Hnin; rewrite <- Hf; apply in_map; exact Hx.
Qed.

(* ================================================================== *)
(** * Claims about the differ *)

(** C4 (counterexample): [computeStateDiff(S, S)] is not empty when the
    snapshot's combat events contain one stamped after the snapshot's own
    tick: the event is counted as new damage and a summary line is written. *)
Lemma C4_counterexample :
  summary (computeStateDiff snap_late_event snap_late_event) = [STook 3]
  /\ damageTaken (combat (computeStateDiff snap_late_event snap_late_event)) = 3.
Proof. split; reflexivity. Qed.

(** Duplicate skill names also make the self-diff non-empty: the first
    entry is compared with the last one of the same name. *)
Example diff_self_duplicate_skill :
  xpGained (computeStateDiff
              (with_skills snap_empty [mkSkill "Attack" 1 1 10; mkSkill "Attack" 1 1 5])
              (with_skills snap_empty [mkSkill "Attack" 1 1 10; mkSkill "Attack" 1 1 5]))
  = [mkXpGain "Attack" 5 false None].
Proof. reflexivity. Qed.

(** C4 (amended): for every snapshot [S] whose combat events and game
    messages are stamped no later than [S]'s tick and whose skill names are
    distinct, [computeStateDiff(S, S)] is the empty diff of [S]'s tick: empty
    summary, no inventory, xp or npc entries, zero combat figures, no move
    (distance 0), all UI flags false and no messages. *)
Theorem computeStateDiff_self_empty (S : BotWorldState)
  (Hev : forall evs, combatEvents S = Some evs -> Forall (fun e => evt_tick e <= tick S) evs)
  (Hmsg : forall ms, gameMessages S = Some ms -> Forall (fun m => msg_tick m <= tick S) ms)
  (Hsk : NoDup (map skill_name (skills S))) :
  computeStateDiff S S = createEmptyDiff (tick S).
Proof.
  unfold computeStateDiff; cbv zeta.
  rewrite diff_inventory_self, (diff_skills_self S Hsk), (diff_combat_self S Hev),
    diff_position_self, diff_ui_self, diff_npcs_self, (diff_messages_self S Hmsg).
  simpl; rewrite Z.sub_diag; reflexivity.
Qed.

Lemma computeStateDiff_self_empty_witness :
  computeStateDiff snap_town snap_town = createEmptyDiff 7.
Proof.
  apply computeStateDiff_self_empty.
  - intros evs H; injection H as <-; repeat constructor; simpl; lia.
  - intros ms H; injection H as <-; repeat constructor; simpl; lia.
  - repeat constructor; simpl; tauto.
Defined.

(** C5 (counterexample): a level increase with unchanged experience yields
    no [xpGained] entry at all, so no [levelUp: true] entry. *)
Lemma C5_counterexample :
  xpGained (computeStateDiff (with_skills snap_empty [mkSkill "Attack" 1 1 100])
                             (with_skills snap_empty [mkSkill "Attack" 2 2 100])) = [].
Proof. reflexivity. Qed.

(** C5 (amended): for a skill [s] of [after] and the skill [b] of the same
    name in [before] (skill names distinct within each snapshot): if the
    experience strictly increased without a base-level increase, [xpGained]
    holds an entry with [levelUp = false]; if the experience strictly
    increased and the base level strictly increased, it holds an entry with
    [levelUp = true] and [newLevel] the new base level; if the experience
    did not increase, no entry of that name is recorded, whatever the level. *)
Theorem computeStateDiff_level_up (before after : BotWorldState) (b s : SkillState)
  (Hndb : NoDup (map skill_name (skills before)))
  (Hnda : NoDup (map skill_name (skills after)))
  (Hb : In b (skills before)) (Hs : In s (skills after))
  (Hname : skill_name b = skill_name s) :
  let d := computeStateDiff before after in
  (skill_experience b < skill_experience s -> skill_baseLevel s <= skill_baseLevel b ->
     In (mkXpGain (skill_name s) (skill_experience s - skill_experience b) false None)
        (xpGained d))
  /\ (skill_experience b < skill_experience s -> skill_baseLevel b < skill_baseLevel s ->
     In (mkXpGain (skill_name s) (skill_experience s - skill_experience b) true
                  (Some (skill_baseLevel s)))
        (xpGained d))
  /\ (skill_experience s <= skill_experience b ->
     forall e, In e (xpGained d) -> x_name e <> skill_name s).
Proof.
  cbv zeta.
  change (xpGained (computeStateDiff before after)) with (fst (diff_skills before after)).
  unfold diff_skills; rewrite diff_skills_entries_acc; simpl.
  assert (Hget : JsMap.get String.eqb (skill_map (skills before)) (skill_name s) = Some b).
  { rewrite <- Hname, skill_map_index.
    apply (JsMapFacts.index_get String.eqb String.eqb_spec skill_name (fun s => s));
      assumption. }
  assert (Hentry : skill_entry (skill_map (skills before)) s
                   = if skill_experience b <? skill_experience s then
                       [mkXpGain (skill_name s) (skill_experience s - skill_experience b)
                          (skill_baseLevel b <? skill_baseLevel s)
                          (if skill_baseLevel b <? skill_baseLevel s
                           then Some (skill_baseLevel s) else None)]
                     else []).
  { unfold skill_entry; rewrite Hget; reflexivity. }
  split; [|split].
  - intros Hx Hl; apply in_flat_map; exists s; split; [exact Hs|].
    rewrite Hentry, (proj2 (Z.ltb_lt _ _) Hx), (proj2 (Z.ltb_ge _ _) Hl).
    left; reflexivity.
  - intros Hx Hl; apply in_flat_map; exists s; split; [exact Hs|].
    rewrite Hentry, (proj2 (Z.ltb_lt _ _) Hx), (proj2 (Z.ltb_lt _ _) Hl).
    left; reflexivity.
  - intros Hx e He Hen; apply in_flat_map in He; destruct He as [s' [Hs' He]].
    assert (Hn' : x_name e = skill_name s').
    { unfold skill_entry in He.
      destruct (JsMap.get String.eqb _ (skill_name s')) as [b'|]; [|destruct He].
      destruct (skill_experience b' <? skill_experience s'); simpl in He; [|destruct He].
      destruct He as [<-|[]]; reflexivity. }
    assert (s' = s) as ->.
    { apply (NoDup_map_same skill_name (skills after)); auto; congruence. }
    rewrite Hentry, (proj2 (Z.ltb_ge _ _) Hx) in He; destruct He.
Qed.

Lemma computeStateDiff_level_up_witness :
  In (mkXpGain "Woodcutting" 25 true (Some 2))
     (xpGained (computeStateDiff (with_skills snap_empty skills_wc_before)
                                 (with_skills snap_empty skills_wc_after))).
Proof.
  refine (proj1 (proj2 (computeStateDiff_level_up
            (with_skills snap_empty skills_wc_before) (with_skills snap_empty skills_wc_after)
            (mkSkill "Woodcutting" 1 1 60) (mkSkill "Woodcutting" 2 2 85)
            _ _ _ _ _)) _ _).
  - repeat constructor; simpl; intuition discriminate.
  - repeat constructor; simpl; intuition discriminate.
  - simpl; tauto.
  - simpl; tauto.
  - reflexivity.
  - simpl; lia.
  - simpl; lia.
Defined.

(** C6: stacks of one item id are merged before comparison: with two stacks
    of id 995 (100 and 50) before and one stack of 200 after, nothing is
    recorded as newly gained or lost, the only change entry for 995 goes
    from 150 to 200, and the summary records a gain of 50. *)
Theorem computeStateDiff_merges_stacks (S : BotWorldState) (n : string) :
  let d := computeStateDiff (with_inventory S [mkItem 995 n 100; mkItem 995 n 50])
                            (with_inventory S [mkItem 995 n 200]) in
  inv_gained d = [] /\ inv_lost d = []
  /\ inv_changed d = [mkInvChange n 200 995 150 200]
  /\ c_after (mkInvChange n 200 995 150 200) - c_before (mkInvChange n 200 995 150 200) = 50
  /\ In (SInvPlus 50 n) (summary d).
Proof.
  cbv zeta; repeat split.
  unfold computeStateDiff; cbv zeta; cbn [summary].
  apply in_app_iff; left; left; reflexivity.
Qed.

(** C7 (counterexample): a diagonal step of one tile in each direction has
    true distance [sqrt 2], but the [distance] field records [1]
    ([Math.round(dist)]). *)
Lemma C7_counterexample :
  let d := computeStateDiff (with_player snap_empty (Some (mkPlayer 0 0)))
                            (with_player snap_empty (Some (mkPlayer 1 1))) in
  moved (position d) = true /\ distance (position d) = 1
  /\ IZR (distance (position d)) <> sqrt (IZR (1 * 1 + 1 * 1)).
Proof.
  cbv zeta; split; [reflexivity|split; [reflexivity|]].
  change (IZR 1 <> sqrt (IZR 2)).
  intros H.
  assert (Hsq : (sqrt (IZR 2) * sqrt (IZR 2))%R = IZR 2) by (apply sqrt_sqrt; lra).
  rewrite <- H in Hsq. lra.
Qed.

(** C7 (amended): when both snapshots have a player, with [n = dx*dx + dz*dz]
    the squared distance: [moved] is true exactly when the distance is
    nonzero; a [Moved] summary line is written exactly when the distance is
    at least 5; the [distance] field is the true distance rounded to the
    nearest integer ([|distance - sqrt n| <= 1/2], written over the
    integers), and 0 when the player did not move. *)
Theorem computeStateDiff_position (before after : BotWorldState) (p q : PlayerState)
  (Hb : player before = Some p) (Ha : player after = Some q) :
  let dx := worldX q - worldX p in
  let dz := worldZ q - worldZ p in
  let n := dx * dx + dz * dz in
  let d := computeStateDiff before after in
  moved (position d) = (0 <? n)
  /\ ((exists k, In (SMoved k) (summary d)) <-> 25 <= n)
  /\ (0 < n -> (2 * distance (position d) - 1) * (2 * distance (position d) - 1) <= 4 * n
               < (2 * distance (position d) + 1) * (2 * distance (position d) + 1))
  /\ (n = 0 -> distance (position d) = 0).
Proof.
  cbv zeta.
  change (position (computeStateDiff before after)) with (fst (diff_position before after)).
  assert (Hpos : diff_position before after =
    let n := (worldX q - worldX p) * (worldX q - worldX p)
             + (worldZ q - worldZ p) * (worldZ q - worldZ p) in
    if 0 <? n then
      (mkPosition true (Some (worldX p, worldZ p)) (Some (worldX q, worldZ q)) (round_sqrt n),
       if 25 <=? n then [SMoved (round_sqrt n)] else [])
    else (emptyPosition, [])).
  { unfold diff_position; rewrite Hb, Ha; reflexivity. }
  setoid_rewrite summary_moved_iff.
  rewrite Hpos; cbv zeta.
  set (n := (worldX q - worldX p) * (worldX q - worldX p)
            + (worldZ q - worldZ p) * (worldZ q - worldZ p)).
  assert (Hn : 0 <= n).
  { unfold n; pose proof (Z.square_nonneg (worldX q - worldX p));
      pose proof (Z.square_nonneg (worldZ q - worldZ p)); lia. }
  destruct (Z.ltb_spec 0 n) as [Hlt|Hge]; simpl.
  - split; [reflexivity|split; [|split]].
    + destruct (Z.leb_spec 25 n); simpl.
      * split; [intros; assumption|intros; exists (round_sqrt n); left; reflexivity].
      * split; [intros [k Hk]; destruct Hk|lia].
    + intros _; apply round_sqrt_nearest; exact Hlt.
    + lia.
  - split; [reflexivity|split; [|split]].
    + split; [intros [k []]|lia].
    + lia.
    + reflexivity.
Qed.

Lemma computeStateDiff_position_witness :
  moved (position (computeStateDiff (with_player snap_empty (Some (mkPlayer 3200 3200)))
                                    (with_player snap_empty (Some (mkPlayer 3203 3204)))))
  = true.
Proof.
  refine (eq_trans (proj1 (computeStateDiff_position
            (with_player snap_empty (Some (mkPlayer 3200 3200)))
            (with_player snap_empty (Some (mkPlayer 3203 3204)))
            (mkPlayer 3200 3200) (mkPlayer 3203 3204) eq_refl eq_refl)) _).
  reflexivity.
Defined.

(* ================================================================== *)
(** * Claims about the task manager *)

(** C1 (counterexample): after [continueTask], the task pauses at the
    second checkpoint, but the pending record's [reason] is the context's
    current action (["initializing"]), not the argument ["B"]. *)
Lemma C1_counterexample :
  let '(m1, tid) := run_task emptyMachine "bot" "chop trees" [SCheckpoint "A"; SCheckpoint "B"] 100 in
  option_map pc_reason (pending_of (fst (continue_op m1 tid None 200)) tid)
    = Some "initializing"%string
  /\ "initializing"%string <> "B"%string.
Proof. split; [reflexivity|discriminate]. Qed.

(** C1 (amended): for a body [checkpoint(A); checkpoint(B)] started in a
    fresh manager, the task first waits for feedback on the call
    [checkpoint(A)]; one [continueTask] resolves it, and once the released
    microtasks have run the task waits for feedback again, the only
    suspended call being [checkpoint(B)] with nothing left to run after it
    but the return, the checkpoint count being 2 and no completed or failed
    report having been emitted.  The pending record's [reason] field holds
    the context's current action, not the checkpoint's argument. *)
Theorem checkpoint_resume_order (A B botName description : string) (now2 : Z)
  (instructions : option string) :
  let '(m1, tid) := run_task emptyMachine botName description [SCheckpoint A; SCheckpoint B] 100 in
  let '(m2, res) := continue_op m1 tid instructions now2 in
  status_of m1 tid = Some TAwaitingFeedback
  /\ (exists pc, pending_of m1 tid = Some pc
                 /\ frame_of m1 (pc_resolve pc) = Some (mkFrame tid A (Some [SCheckpoint B])))
  /\ res = inr (mkResult true instructions false None)
  /\ status_of m2 tid = Some TAwaitingFeedback
  /\ (exists pc c, pending_of m2 tid = Some pc /\ get_ctx m2 tid = Some c
                   /\ m_frames m2 = [(pc_resolve pc, mkFrame tid B (Some []))]
                   /\ pc_reason pc = ctx_currentAction c
                   /\ ctx_checkpointCount c = 2%nat)
  /\ m_jobs m2 = []
  /\ filter is_final_report (history_of m2 tid) = [].
Proof.
  destruct instructions as [[|c s]|]; simpl;
    repeat split; try reflexivity; repeat eexists; try reflexivity.
Qed.

Lemma get_task_update_same m tid f t :
  get_task m tid = Some t -> get_task (update_task m tid f) tid = Some (f t).
Proof.
  unfold update_task; intros H; rewrite H; unfold get_task; simpl.
  apply (JsMapFacts.get_set_same TaskId_eqb TaskId_eqb_spec).
Qed.

Lemma get_task_enqueue m j tid : get_task (enqueue m j) tid = get_task m tid.
Proof. reflexivity. Qed.

(** C2 (counterexample): a body that calls [ctx.checkpoint("A")] without
    awaiting it and returns leaves a [completed] task that still holds a
    pending record; [continueTask] on it succeeds and sets it back to
    [running]. *)
Lemma C2_counterexample :
  let '(m1, tid) := run_task emptyMachine "bot" "chop trees" [SCheckpointNoAwait "A"] 100 in
  status_of m1 tid = Some TCompleted
  /\ snd (continueTask m1 tid None 200) = inr (mkResult true None false None)
  /\ status_of (fst (continueTask m1 tid None 200)) tid = Some TRunning.
Proof. repeat split; reflexivity. Qed.

(** C2 (amended): [continueTask(taskId, instructions)] fails with
    "not found" on an unknown id and with "not paused" on a task without a
    pending-checkpoint record, leaving the whole state (status and pending
    record included) unchanged; on a task with a pending record, whatever
    its status, it returns [{continue: true, newInstructions: instructions}],
    resolves the pending record's promise with that result, clears the
    record and sets the status to [running]. *)
Theorem continueTask_spec (m : Machine) (tid : TaskId) (instructions : option string) (now : Z) :
  let '(m', res) := continueTask m tid instructions now in
  match get_task m tid with
  | None => res = inl TaskNotFound /\ m' = m
  | Some t =>
      match t_pending t with
      | None => res = inl TaskNotPaused /\ m' = m
      | Some pc =>
          res = inr (mkResult true instructions false None)
          /\ m_jobs m' = m_jobs m ++ [JResume (pc_resolve pc) (mkResult true instructions false None)]
          /\ pending_of m' tid = None
          /\ status_of m' tid = Some TRunning
      end
  end.
Proof.
  unfold continueTask.
  destruct (get_task m tid) as [t|] eqn:Ht; [|split; reflexivity].
  destruct (t_pending t) as [pc|] eqn:Hp; [|split; reflexivity].
  assert (Hu : get_task (update_task (enqueue m (JResume (pc_resolve pc)
                 (mkResult true instructions false None))) tid
                 (fun t => task_with t TRunning now None)) tid
               = Some (task_with t TRunning now None)).
  { apply (get_task_update_same _ _ (fun t => task_with t TRunning now None)).
    rewrite get_task_enqueue; exact Ht. }
  unfold pending_of, status_of; rewrite Hu; simpl.
  split; [reflexivity|split; [|split; reflexivity]].
  unfold update_task; rewrite get_task_enqueue, Ht; reflexivity.
Qed.

(** C3 (code bug, evaluated at the failing input): a task whose body is
    [await ctx.checkpoint("A"); return;] is aborted while it waits for
    feedback.  [abortTask] does set [aborted], clear the pending record and
    resolve it with [{continue: false, abort: true}]; but the resumed body
    returns, the harness calls [completeTask], and the task ends
    [completed] with a [completed] report in its progress history. *)
Lemma abort_while_paused_ends_completed :
  let '(m1, tid) := run_task emptyMachine "bot" "chop trees" [SCheckpoint "A"] 100 in
  status_of m1 tid = Some TAwaitingFeedback
  /\ status_of (fst (abortTask m1 tid None 200)) tid = Some TAborted
  /\ pending_of (fst (abortTask m1 tid None 200)) tid = None
  /\ m_jobs (fst (abortTask m1 tid None 200))
     = [JResume 0 (mkResult false None true (Some "Task aborted by user"%string))]
  /\ status_of (fst (abort_op m1 tid None 200)) tid = Some TCompleted
  /\ filter is_final_report (history_of (fst (abort_op m1 tid None 200)) tid)
     = [mkProgress "initializing" PCompleted (Some "Task completed"%string)].
Proof. repeat split; reflexivity. Qed.

(** C8 (code bug, evaluated at the failing input): a handler that throws
    [undefined] makes the catch block read [error.message] of [undefined];
    the resulting [TypeError] escapes [checkpoint] into the task body. *)
Lemma checkpoint_handler_throws_undefined :
  snd (ctx_checkpoint (newTaskContext (1%nat, 100)) "A" (Some (fun _ => HReject ThUndefined)))
  = Raised (ThError "Cannot read properties of undefined (reading 'message')"%string).
Proof. reflexivity. Qed.



(* ------------------------------------------------------------------ *)
(** ** [TaskManager.cleanup] *)

Section Delete.
Context {K V : Type} (keq : K -> K -> bool).
Hypothesis keq_spec : forall a b, reflect (a = b) (keq a b).

Lemma delete_sub (m : list (K * V)) k0 k v :
  In (k, v) (JsMap.delete keq m k0) -> In (k, v) m.
Proof.
  induction m as [|[k1 v1] r IH]; simpl; [tauto|].
  destruct (keq k1 k0); simpl; intuition.
Qed.

Lemma delete_keys_sub (m : list (K * V)) k0 k :
  In k (map fst (JsMap.delete keq m k0)) -> In k (map fst m).
Proof.
  rewrite !in_map_iff; intros [[k' v] [Hk Hin]]; simpl in Hk; subst k.
  exists (k', v); split; [reflexivity|exact (delete_sub m k0 k' v Hin)].
Qed.

Lemma delete_NoDup (m : list (K * V)) k0 :
  NoDup (map fst m) -> NoDup (map fst (JsMap.delete keq m k0)).
Proof.
  induction m as [|[k1 v1] r IH]; simpl; intros Hnd; [constructor|].
  inversion Hnd as [|? ? Hnin Hnd']; subst.
  destruct (keq k1 k0); simpl; [exact Hnd'|].
  constructor; [|exact (IH Hnd')].
  intros Hin; apply Hnin; exact (delete_keys_sub r k0 k1 Hin).
Qed.

Lemma delete_In (m : list (K * V)) k0 k v :
  NoDup (map fst m) -> (In (k, v) (JsMap.delete keq m k0) <-> In (k, v) m /\ k <> k0).
Proof.
  induction m as [|[k1 v1] r IH]; simpl; intros Hnd; [tauto|].
  inversion Hnd as [|? ? Hnin Hnd']; subst.
  destruct (keq_spec k1 k0) as [->|Hne]; simpl.
  - split.
    + intros Hin; split; [right; exact Hin|].
      intros ->; apply Hnin; change k0 with (fst (k0, v)); apply in_map; exact Hin.
    + intros [[Heq|Hin] Hk]; [inversion Heq; congruence|exact Hin].
  - rewrite (IH Hnd'); split.
    + intros [Heq|[Hin Hk]]; [inversion Heq; subst; tauto|tauto].
    + intros [[Heq|Hin] Hk]; [left; exact Heq|right; tauto].
Qed.

Lemma get_None_iff (m : list (K * V)) k :
  JsMap.get keq m k = None <-> ~ In k (map fst m).
Proof.
  rewrite <- (JsMapFacts.has_In keq keq_spec); unfold JsMap.has.
  destruct (JsMap.get keq m k); split; congruence.
Qed.
End Delete.

Lemma evictable_iff now maxAge t :
  evictable now maxAge t = true
  <-> now - t_lastUpdate t > maxAge /\ t_status t <> TRunning /\ t_status t <> TAwaitingFeedback.
Proof.
  unfold evictable; rewrite !andb_true_iff, Z.ltb_lt.
  destruct (t_status t); simpl; intuition (try congruence; try lia).
Qed.

Lemma update_ctx_tasks m tid f : m_tasks (update_ctx m tid f) = m_tasks m.
Proof. unfold update_ctx; destruct (get_ctx m tid); reflexivity. Qed.

(** The table as the loop leaves it. *)
Definition table_after (now maxAge : Z) (l tbl : list (TaskId * RunningTask))
  : list (TaskId * RunningTask) :=
  fold_left (fun tbl e => if evictable now maxAge (snd e)
                          then JsMap.delete TaskId_eqb tbl (fst e) else tbl) l tbl.

Lemma cleanup_fold_tasks now maxAge l s :
  m_tasks (fst (fold_left (cleanup_step now maxAge) l s))
  = table_after now maxAge l (m_tasks (fst s)).
Proof.
  unfold table_after; revert s; induction l as [|[id t] r IH]; intros [m0 n]; simpl;
    [reflexivity|].
  rewrite IH; simpl; destruct (evictable now maxAge t); reflexivity.
Qed.

Lemma cleanup_fold_count now maxAge l s :
  snd (fold_left (cleanup_step now maxAge) l s)
  = (snd s + length (filter (fun e => evictable now maxAge (snd e)) l))%nat.
Proof.
  revert s; induction l as [|[id t] r IH]; intros [m0 n]; simpl; [lia|].
  rewrite IH; simpl; destruct (evictable now maxAge t); simpl; lia.
Qed.

Lemma table_after_NoDup now maxAge l tbl :
  NoDup (map fst tbl) -> NoDup (map fst (table_after now maxAge l tbl)).
Proof.
  unfold table_after; revert tbl; induction l as [|[id t] r IH]; intros tbl Hnd; simpl;
    [exact Hnd|].
  apply IH; destruct (evictable now maxAge t); [apply delete_NoDup; exact Hnd|exact Hnd].
Qed.

Lemma table_after_sub now maxAge l tbl k v :
  In (k, v) (table_after now maxAge l tbl) -> In (k, v) tbl.
Proof.
  unfold table_after; revert tbl; induction l as [|[id t] r IH]; intros tbl Hin; simpl in *;
    [exact Hin|].
  apply IH in Hin; destruct (evictable now maxAge t); [exact (delete_sub _ _ _ _ _ Hin)|exact Hin].
Qed.

Lemma table_after_In now maxAge l tbl k v :
  NoDup (map fst tbl) ->
  (In (k, v) (table_after now maxAge l tbl)
   <-> In (k, v) tbl /\ ~ (exists v', In (k, v') l /\ evictable now maxAge v' = true)).
Proof.
  unfold table_after; revert tbl; induction l as [|[id t] r IH]; intros tbl Hnd; simpl.
  - split; [intros H; split; [exact H|intros [v' [[] _]]]|tauto].
  - case_eq (evictable now maxAge t); intros Hev.
    + rewrite (IH _ (delete_NoDup _ _ _ Hnd)), (delete_In _ TaskId_eqb_spec _ _ _ _ Hnd).
      split.
      * intros [[Hin Hk] Hno]; split; [exact Hin|].
        intros [v' [[Heq|Hin'] Hev']]; [inversion Heq; congruence|].
        apply Hno; exists v'; tauto.
      * intros [Hin Hno]; split; [split; [exact Hin|]|].
        -- intros ->; apply Hno; exists t; split; [left; reflexivity|exact Hev].
        -- intros [v' [Hin' Hev']]; apply Hno; exists v'; tauto.
    + rewrite (IH _ Hnd); split.
      * intros [Hin Hno]; split; [exact Hin|].
        intros [v' [[Heq|Hin'] Hev']]; [inversion Heq; subst; congruence|].
        apply Hno; exists v'; tauto.
      * intros [Hin Hno]; split; [exact Hin|].
        intros [v' [Hin' Hev']]; apply Hno; exists v'; tauto.
Qed.

Lemma cleanup_In now maxAge m k v :
  NoDup (map fst (m_tasks m)) ->
  (In (k, v) (m_tasks (fst (cleanup now maxAge m)))
   <-> In (k, v) (m_tasks m) /\ evictable now maxAge v = false).
Proof.
  intros Hnd; unfold cleanup; rewrite cleanup_fold_tasks; simpl.
  rewrite (table_after_In _ _ _ _ _ _ Hnd); split.
  - intros [Hin Hno]; split; [exact Hin|].
    destruct (evictable now maxAge v) eqn:Hev; [|reflexivity].
    exfalso; apply Hno; exists v; tauto.
  - intros [Hin Hev]; split; [exact Hin|].
    intros [v' [Hin' Hev']].
    pose proof (JsMapFacts.In_get TaskId_eqb TaskId_eqb_spec _ _ _ Hnd Hin) as G1.
    pose proof (JsMapFacts.In_get TaskId_eqb TaskId_eqb_spec _ _ _ Hnd Hin') as G2.
    congruence.
Qed.

Lemma cleanup_NoDup now maxAge m :
  NoDup (map fst (m_tasks m)) -> NoDup (map fst (m_tasks (fst (cleanup now maxAge m)))).
Proof.
  intros Hnd; unfold cleanup; rewrite cleanup_fold_tasks; apply table_after_NoDup; exact Hnd.
Qed.

Lemma cleanup_keys_sub now maxAge m k :
  In k (map fst (m_tasks (fst (cleanup now maxAge m)))) -> In k (map fst (m_tasks m)).
Proof.
  unfold cleanup; rewrite cleanup_fold_tasks; simpl; rewrite !in_map_iff.
  intros [[k' v] [Hk Hin]]; exists (k', v); split; [exact Hk|].
  exact (table_after_sub _ _ _ _ _ _ Hin).
Qed.

(** C9: with the table's keys distinct (a [Map]), [cleanup(maxAge)] keeps
    exactly the entries that are not (older than [maxAge], not [running] and
    not [awaiting_feedback]), reports their number, never removes a running
    or awaiting task, and a second call finds nothing more to do: an evicted
    task stays absent whenever cleanup runs again, and a second call at the
    same time changes nothing and cleans 0 tasks. *)
Theorem cleanup_evicts_exactly (m : Machine) (now maxAge : Z)
  (Hnd : NoDup (map fst (m_tasks m))) :
  (forall id t, In (id, t) (m_tasks (fst (cleanup now maxAge m)))
     <-> In (id, t) (m_tasks m)
         /\ ~ (now - t_lastUpdate t > maxAge /\ t_status t <> TRunning
               /\ t_status t <> TAwaitingFeedback))
  /\ snd (cleanup now maxAge m)
     = length (filter (fun e => evictable now maxAge (snd e)) (m_tasks m))
  /\ (forall id t, In (id, t) (m_tasks m) ->
        t_status t = TRunning \/ t_status t = TAwaitingFeedback ->
        In (id, t) (m_tasks (fst (cleanup now maxAge m))))
  /\ (forall now' maxAge' id, get_task (fst (cleanup now maxAge m)) id = None ->
        get_task (fst (cleanup now' maxAge' (fst (cleanup now maxAge m)))) id = None)
  /\ cleanup now maxAge (fst (cleanup now maxAge m)) = (fst (cleanup now maxAge m), 0%nat).
Proof.
  assert (Hiff : forall id t, In (id, t) (m_tasks (fst (cleanup now maxAge m)))
            <-> In (id, t) (m_tasks m) /\ evictable now maxAge t = false)
    by (intros; apply cleanup_In; exact Hnd).
  split; [|split; [|split; [|split]]].
  - intros id t; rewrite Hiff, <- evictable_iff.
    destruct (evictable now maxAge t); intuition congruence.
  - unfold cleanup; rewrite cleanup_fold_count; reflexivity.
  - intros id t Hin Hst; apply Hiff; split; [exact Hin|].
    unfold evictable; destruct Hst as [-> | ->]; simpl;
    destruct (maxAge <? now - t_lastUpdate t); reflexivity.
  - intros now' maxAge' id; unfold get_task; rewrite !(get_None_iff _ TaskId_eqb_spec).
    intros Hn Hin; apply Hn; exact (cleanup_keys_sub _ _ _ _ Hin).
  - unfold cleanup at 1; apply fold_left_fixed.
    intros [id t] Hin; apply Hiff in Hin; destruct Hin as [_ Hev].
    simpl; rewrite Hev; reflexivity.
Qed.

Lemma cleanup_evicts_exactly_witness :
  NoDup (map fst (m_tasks cleanup_demo)) /\ snd (cleanup 5000 1000 cleanup_demo) = 1%nat.
Proof.
  assert (Hnd : NoDup (map fst (m_tasks cleanup_demo))).
  { simpl; repeat constructor; simpl; intuition discriminate. }
  split; [exact Hnd|].
  destruct (cleanup_evicts_exactly cleanup_demo 5000 1000 Hnd) as [_ [Hc _]].
  rewrite Hc; reflexivity.
Defined.

(* ------------------------------------------------------------------ *)
(** ** Progress reports *)

Lemma reports_extend_refl m : reports_extend m m.
Proof. intros tid c H; exists c, []; rewrite app_nil_r; tauto. Qed.

Lemma reports_extend_trans m1 m2 m3 :
  reports_extend m1 m2 -> reports_extend m2 m3 -> reports_extend m1 m3.
Proof.
  intros H12 H23 tid c H1.
  destruct (H12 _ _ H1) as [c2 [l2 [H2 E2]]].
  destruct (H23 _ _ H2) as [c3 [l3 [H3 E3]]].
  exists c3, (l2 ++ l3); rewrite E3, E2, app_assoc; tauto.
Qed.

Lemma grows_refl m : ctx_grows m m.
Proof. split; [apply reports_extend_refl|tauto]. Qed.

Lemma grows_trans m1 m2 m3 : ctx_grows m1 m2 -> ctx_grows m2 m3 -> ctx_grows m1 m3.
Proof.
  intros [R12 [K12 C12]] [R23 [K23 C23]]; split; [eapply reports_extend_trans; eassumption|].
  split; [intros tid H; apply K12, K23, H|congruence].
Qed.

Lemma grows_same m m' :
  m_contexts m' = m_contexts m -> m_taskCounter m' = m_taskCounter m -> ctx_grows m m'.
Proof.
  intros Hc Hn; split; [|split; [rewrite Hc; tauto|exact Hn]].
  intros tid c H; exists c, []; unfold get_ctx in *; rewrite Hc, app_nil_r; tauto.
Qed.

Lemma grows_set m m' tid c c' later :
  get_ctx m tid = Some c ->
  m_contexts m' = JsMap.set TaskId_eqb (m_contexts m) tid c' ->
  ctx_progressReports c' = ctx_progressReports c ++ later ->
  m_taskCounter m' = m_taskCounter m -> ctx_grows m m'.
Proof.
  intros Hg Hc Hr Hn; split; [|split; [|exact Hn]].
  - intros tid0 c0 H0; unfold get_ctx in *; rewrite Hc.
    destruct (TaskId_eqb_spec tid tid0) as [<-|Hne].
    + rewrite (JsMapFacts.get_set_same TaskId_eqb TaskId_eqb_spec).
      exists c', later; split; [reflexivity|congruence].
    + rewrite (JsMapFacts.get_set_other TaskId_eqb TaskId_eqb_spec _ _ _ _ Hne).
      exists c0, []; rewrite app_nil_r; tauto.
  - intros tid0; rewrite Hc, (JsMapFacts.set_keys TaskId_eqb TaskId_eqb_spec).
    intros [->|H]; [|exact H].
    apply (JsMapFacts.has_In TaskId_eqb TaskId_eqb_spec); unfold JsMap.has.
    unfold get_ctx in Hg; rewrite Hg; reflexivity.
Qed.

Lemma update_ctx_grows m tid f : appends_reports f -> ctx_grows m (update_ctx m tid f).
Proof.
  intros Hf; unfold update_ctx; destruct (get_ctx m tid) as [c|] eqn:Hg; [|apply grows_refl].
  destruct (Hf c) as [later Hl].
  apply (grows_set m _ tid c (f c) later); auto.
Qed.

Lemma update_task_grows m tid f : ctx_grows m (update_task m tid f).
Proof. unfold update_task; destruct (get_task m tid); apply grows_same; reflexivity. Qed.

Lemma enqueue_grows m j : ctx_grows m (enqueue m j).
Proof. apply grows_same; reflexivity. Qed.

Lemma remove_frame_grows m k : ctx_grows m (remove_frame m k).
Proof. apply grows_same; reflexivity. Qed.

Lemma set_tasks_grows m ts : ctx_grows m (set_tasks m ts).
Proof. apply grows_same; reflexivity. Qed.

Lemma reportProgress_appends p now : appends_reports (fun c => ctx_reportProgress c p now).
Proof. intros c; exists [p]; reflexivity. Qed.

Lemma unchanged_reports (f : TaskContext -> TaskContext) :
  (forall c, ctx_progressReports (f c) = ctx_progressReports c) -> appends_reports f.
Proof. intros H c; exists []; rewrite app_nil_r; apply H. Qed.

Lemma checkpoint_resume_reports c r :
  ctx_progressReports (checkpoint_resume c r) = ctx_progressReports c.
Proof.
  unfold checkpoint_resume; destruct (cr_abort r); [reflexivity|].
  destruct (truthy (cr_newInstructions r)); reflexivity.
Qed.

Ltac ctx_app :=
  first [ apply reportProgress_appends
        | apply unchanged_reports; intros; first [reflexivity | apply checkpoint_resume_reports] ].

Create HintDb grows.
Global Hint Resolve update_task_grows enqueue_grows remove_frame_grows set_tasks_grows : grows.
Global Hint Extern 1 (ctx_grows _ (update_ctx _ _ _)) => apply update_ctx_grows; ctx_app : grows.

(** Splits [ctx_grows m (op (op' ... m))] along the nested operations, each
    of which takes the machine as its first argument; the steps are closed
    with the lemmas of the [grows] database. *)
Ltac grow :=
  cbv beta iota zeta;
  match goal with
  | |- ctx_grows ?m ?m => apply grows_refl
  | |- ctx_grows ?m (_ ?y _) => apply (grows_trans m y); [grow|solve [auto with grows]]
  | |- ctx_grows ?m (_ ?y _ _) => apply (grows_trans m y); [grow|solve [auto with grows]]
  | |- ctx_grows ?m (_ ?y _ _ _) => apply (grows_trans m y); [grow|solve [auto with grows]]
  | |- ctx_grows ?m (_ ?y _ _ _ _) => apply (grows_trans m y); [grow|solve [auto with grows]]
  end.

Lemma report_grows m tid p now : ctx_grows m (report m tid p now).
Proof. unfold report; grow. Qed.
Global Hint Resolve report_grows : grows.


Lemma setAction_grows m tid a now : ctx_grows m (setAction m tid a now).
Proof. unfold setAction; grow. Qed.
Global Hint Resolve setAction_grows : grows.


Lemma completeTask_grows m tid now : ctx_grows m (completeTask m tid now).
Proof.
  unfold completeTask; destruct (get_task m tid), (get_ctx m tid); grow.
Qed.
Global Hint Resolve completeTask_grows : grows.


Lemma failTask_grows m tid err now : ctx_grows m (failTask m tid err now).
Proof.
  unfold failTask; destruct (get_task m tid), (get_ctx m tid); grow.
Qed.
Global Hint Resolve failTask_grows : grows.


Lemma handleCheckpoint_grows m tid st now k : ctx_grows m (handleCheckpoint m tid st now k).
Proof. unfold handleCheckpoint; destruct (get_task m tid); grow. Qed.
Global Hint Resolve handleCheckpoint_grows : grows.


Lemma checkpoint_begin_reports c reason :
  ctx_progressReports (fst (checkpoint_begin c reason)) = ctx_progressReports c.
Proof. reflexivity. Qed.

Lemma checkpoint_call_grows m tid reason cont now :
  ctx_grows m (checkpoint_call m tid reason cont now).
Proof.
  unfold checkpoint_call; destruct (get_ctx m tid) as [c|] eqn:Hg; [|apply grows_refl].
  destruct (checkpoint_begin c reason) as [c1 st] eqn:Hb; cbv beta iota zeta.
  eapply grows_trans; [|apply handleCheckpoint_grows].
  apply (grows_set m _ tid c c1 []); try reflexivity; [exact Hg|].
  rewrite app_nil_r; change c1 with (fst (c1, st)); rewrite <- Hb; reflexivity.
Qed.
Global Hint Resolve checkpoint_call_grows : grows.


Lemma run_body_grows b m tid now : ctx_grows m (run_body m tid b now).
Proof.
  revert m; induction b as [|s rest IH]; intros m; simpl; [grow|].
  destruct s; try grow.
  destruct (get_ctx m tid); [destruct (shouldContinue t)|]; first [apply IH | grow].
Qed.
Global Hint Resolve run_body_grows : grows.


Lemma process_job_grows m j now : ctx_grows m (process_job m j now).
Proof.
  destruct j as [k r|tid|tid msg]; simpl.
  - destruct (JsMap.get Nat.eqb (m_frames m) k) as [f|]; [|apply grows_refl].
    destruct (f_cont f); grow.
  - grow.
  - destruct (get_task m tid) as [t|]; [destruct (TaskState_eqb (t_status t) TAwaitingFeedback)|];
      grow.
Qed.

Lemma drain_grows fuel m now : ctx_grows m (drain fuel m now).
Proof.
  revert m; induction fuel as [|f IH]; intros m; simpl; [apply grows_refl|].
  unfold pop_job; destruct (m_jobs m) as [|j js]; [apply grows_refl|].
  eapply grows_trans; [|apply IH].
  eapply grows_trans; [|apply process_job_grows].
  apply grows_same; reflexivity.
Qed.

Lemma settle_grows m now : ctx_grows m (settle m now).
Proof. apply drain_grows. Qed.
Global Hint Resolve settle_grows : grows.


Lemma continue_op_grows m tid i now : ctx_grows m (fst (continue_op m tid i now)).
Proof.
  unfold continue_op, continueTask.
  destruct (get_task m tid) as [t|]; [destruct (t_pending t)|];
    cbv beta iota zeta delta [fst]; grow.
Qed.

Lemma abort_op_grows m tid reason now : ctx_grows m (fst (abort_op m tid reason now)).
Proof.
  unfold abort_op, abortTask.
  destruct (get_task m tid) as [t|]; [destruct (t_pending t)|];
    cbv beta iota zeta delta [fst]; grow.
Qed.

Lemma cleanup_grows now maxAge m : ctx_grows m (fst (cleanup now maxAge m)).
Proof.
  unfold cleanup.
  apply (fold_left_invariant (fun acc => ctx_grows m (fst acc))); [apply grows_refl|].
  intros [m0 n] [id t] H; simpl.
  destruct (evictable now maxAge t); [|exact H].
  eapply grows_trans; [exact H|]; cbn [fst]; grow.
Qed.

Lemma grows_ids_issued m m' : ctx_grows m m' -> ids_issued m -> ids_issued m'.
Proof.
  intros [_ [K C]] H tid Hin; rewrite C; apply H, K, Hin.
Qed.

Lemma run_task_extends m botName description body now :
  ids_issued m ->
  reports_extend m (fst (run_task m botName description body now))
  /\ ids_issued (fst (run_task m botName description body now)).
Proof.
  intros Hid; unfold run_task; simpl.
  set (tid := (S (m_taskCounter m), now)).
  set (m1 := mkMachine _ _ (JsMap.set TaskId_eqb (m_contexts m) tid (newTaskContext tid)) _ _ _).
  assert (G : ctx_grows m1 (settle (run_body m1 tid body now) now)).
  { eapply grows_trans; [apply run_body_grows|apply settle_grows]. }
  assert (I1 : ids_issued m1).
  { intros tid0; simpl; rewrite (JsMapFacts.set_keys TaskId_eqb TaskId_eqb_spec).
    intros [->|Hin]; [simpl; lia|]. specialize (Hid _ Hin); lia. }
  split; [|exact (grows_ids_issued _ _ G I1)].
  eapply reports_extend_trans; [|exact (proj1 G)].
  intros tid0 c H0; exists c, []; rewrite app_nil_r; split; [|reflexivity].
  unfold get_ctx in *; simpl.
  rewrite (JsMapFacts.get_set_other TaskId_eqb TaskId_eqb_spec); [exact H0|].
  intros Heq.
  assert (Hin : In tid0 (map fst (m_contexts m))).
  { apply (JsMapFacts.has_In TaskId_eqb TaskId_eqb_spec); unfold JsMap.has; rewrite H0; reflexivity. }
  specialize (Hid _ Hin); rewrite <- Heq in Hid; simpl in Hid; lia.
Qed.

Lemma exec_op_extends m op :
  ids_issued m -> reports_extend m (exec_op m op) /\ ids_issued (exec_op m op).
Proof.
  intros Hid; destruct op as [b d body now|tid i now|tid r now|now maxAge]; simpl.
  - apply run_task_extends; exact Hid.
  - pose proof (continue_op_grows m tid i now) as G.
    split; [exact (proj1 G)|exact (grows_ids_issued _ _ G Hid)].
  - pose proof (abort_op_grows m tid r now) as G.
    split; [exact (proj1 G)|exact (grows_ids_issued _ _ G Hid)].
  - pose proof (cleanup_grows now maxAge m) as G.
    split; [exact (proj1 G)|exact (grows_ids_issued _ _ G Hid)].
Qed.

Lemma exec_ops_extends ops m :
  ids_issued m -> reports_extend m (exec_ops m ops) /\ ids_issued (exec_ops m ops).
Proof.
  unfold exec_ops; revert m; induction ops as [|op r IH]; intros m Hid; simpl.
  - split; [apply reports_extend_refl|exact Hid].
  - destruct (exec_op_extends m op Hid) as [E1 I1].
    destruct (IH _ I1) as [E2 I2].
    split; [eapply reports_extend_trans; eassumption|exact I2].
Qed.

Lemma ids_issued_empty : ids_issued emptyMachine.
Proof. intros tid []. Qed.

(** C10: [getStatus().progressReports] is [progressReports.slice(-10)]: the
    last [min 10 n] of the [n] reports the context holds.  The context's
    own list only grows: [reportProgress] appends its report,
    [checkpoint] (whatever its handler does) leaves the list as it is, and
    along any run of controller operations from the empty manager the
    reports of every context are extended, never shortened. *)
Theorem progress_reports_tail_and_history :
  (forall c, length (ts_progressReports (getStatus c)) = Nat.min 10 (length (ctx_progressReports c))
             /\ exists older, ctx_progressReports c = older ++ ts_progressReports (getStatus c))
  /\ (forall c p now, ctx_progressReports (ctx_reportProgress c p now)
                      = ctx_progressReports c ++ [p])
  /\ (forall c reason h, ctx_progressReports (fst (ctx_checkpoint c reason h))
                         = ctx_progressReports c)
  /\ (forall ops1 ops2 tid c, get_ctx (exec_ops emptyMachine ops1) tid = Some c ->
        exists c' later, get_ctx (exec_ops (exec_ops emptyMachine ops1) ops2) tid = Some c'
                         /\ ctx_progressReports c' = ctx_progressReports c ++ later).
Proof.
  split; [|split; [|split]].
  - intros c; unfold getStatus, slice_last; cbn [ts_progressReports]; split.
    + rewrite length_skipn; lia.
    + exists (firstn (length (ctx_progressReports c) - 10) (ctx_progressReports c)).
      symmetry; apply firstn_skipn.
  - reflexivity.
  - intros c reason h; unfold ctx_checkpoint; simpl.
    destruct h as [h|]; [|reflexivity].
    destruct (h _) as [r|v]; simpl; [rewrite checkpoint_resume_reports; reflexivity|].
    destruct (read_message v); reflexivity.
  - intros ops1 ops2 tid c H.
    destruct (exec_ops_extends ops1 _ ids_issued_empty) as [_ I1].
    destruct (exec_ops_extends ops2 _ I1) as [E2 _].
    exact (E2 _ _ H).
Qed.

Lemma progress_reports_tail_and_history_witness :
  exists c, get_ctx (exec_ops emptyMachine [OpRunTask "bot" "chop trees" [SCheckpoint "A"] 100])
                    (1%nat, 100) = Some c
  /\ exists c' later,
       get_ctx (exec_ops (exec_ops emptyMachine [OpRunTask "bot" "chop trees" [SCheckpoint "A"] 100])
                         [OpContinue (1%nat, 100) None 200]) (1%nat, 100) = Some c'
       /\ ctx_progressReports c' = ctx_progressReports c ++ later.
Proof.
  eexists; split; [reflexivity|].
  destruct progress_reports_tail_and_history as [_ [_ [_ H]]].
  apply H; reflexivity.
Defined.

(* ------------------------------------------------------------------ *)
(** ** Additional properties of the code *)

Section GetIn.
Context {K V : Type} (keq : K -> K -> bool).
Hypothesis keq_spec : forall a b, reflect (a = b) (keq a b).

Lemma get_In (m : list (K * V)) k v : JsMap.get keq m k = Some v -> In (k, v) m.
Proof.
  induction m as [|[k1 v1] r IH]; simpl; [discriminate|].
  destruct (keq_spec k1 k) as [->|Hne]; [intros H; inversion H; left; reflexivity|].
  intros H; right; exact (IH H).
Qed.

Lemma get_iff (m : list (K * V)) k v :
  NoDup (map fst m) -> (JsMap.get keq m k = Some v <-> In (k, v) m).
Proof.
  intros Hnd; split; [apply get_In|apply (JsMapFacts.In_get keq keq_spec); exact Hnd].
Qed.
End GetIn.

Lemma group_fold_get items acc id :
  JsMap.get Z.eqb (fold_left group_step items acc) id =
  match JsMap.get Z.eqb acc id with
  | Some e => Some (mkInvEntry (e_name e) (e_count e + id_total items id) (e_id e))
  | None =>
      match find (fun it => item_id it =? id) items with
      | Some it => Some (mkInvEntry (item_name it) (id_total items id) (item_id it))
      | None => None
      end
  end.
Proof.
  revert acc; induction items as [|it r IH]; intros acc; simpl.
  - destruct (JsMap.get Z.eqb acc id) as [[n c i]|]; simpl; [rewrite Z.add_0_r|]; reflexivity.
  - rewrite IH; unfold group_step.
    destruct (Z.eqb_spec (item_id it) id) as [<-|Hne].
    + destruct (JsMap.get Z.eqb acc (item_id it)) as [e|];
        rewrite (JsMapFacts.get_set_same Z.eqb Z.eqb_spec); simpl;
        f_equal; f_equal; lia.
    + destruct (JsMap.get Z.eqb acc (item_id it));
        rewrite (JsMapFacts.get_set_other Z.eqb Z.eqb_spec _ _ _ _ Hne); reflexivity.
Qed.

(** Extra X2: the grouping of an inventory maps every item id that occurs
    to an entry with that id, the name of its first stack and the sum of the
    counts of all its stacks; an id that does not occur has no entry. *)
Theorem group_items_get items id :
  JsMap.get Z.eqb (group_items items) id =
  match find (fun it => item_id it =? id) items with
  | Some it => Some (mkInvEntry (item_name it) (id_total items id) id)
  | None => None
  end.
Proof.
  unfold group_items; rewrite group_fold_get; simpl.
  destruct (find (fun it => item_id it =? id) items) as [it|] eqn:E; [|reflexivity].
  apply find_some in E; destruct E as [_ E]; apply Z.eqb_eq in E; rewrite E; reflexivity.
Qed.

Lemma group_items_id items k v : In (k, v) (group_items items) -> e_id v = k.
Proof.
  intros Hin; apply (JsMapFacts.In_get Z.eqb Z.eqb_spec _ _ _ (group_items_NoDup items)) in Hin.
  unfold group_items in Hin; rewrite group_fold_get in Hin; simpl in Hin.
  destruct (find (fun it => item_id it =? k) items) as [it|] eqn:E; inversion Hin; subst; simpl.
  apply find_some in E; destruct E as [_ E]; apply Z.eqb_eq in E; exact E.
Qed.

Lemma gained_fold Bi L acc :
  ip_gained (fold_left (gained_step Bi) L acc) = ip_gained acc ++ flat_map (gained_part Bi) L
  /\ ip_lost (fold_left (gained_step Bi) L acc) = ip_lost acc
  /\ ip_changed (fold_left (gained_step Bi) L acc) = ip_changed acc ++ flat_map (up_part Bi) L.
Proof.
  revert acc; induction L as [|[k v] r IH]; intros acc; cbn [fold_left flat_map];
    [rewrite !app_nil_r; tauto|].
  destruct (IH (gained_step Bi acc (k, v))) as [G [Lo C]]; rewrite G, Lo, C.
  unfold gained_step, gained_part, up_part; simpl.
  destruct (JsMap.get Z.eqb Bi k) as [b|]; [destruct (e_count b <? e_count v)|]; simpl;
    rewrite <- ?app_assoc; auto.
Qed.

Lemma lost_fold Ai L acc :
  NoDup (map fst L) -> (forall k v, In (k, v) L -> e_id v = k) ->
  (forall k v a, In (k, v) L -> JsMap.get Z.eqb Ai k = Some a -> e_count a < e_count v ->
                 ~ In k (map c_id (ip_changed acc))) ->
  ip_gained (fold_left (lost_step Ai) L acc) = ip_gained acc
  /\ ip_lost (fold_left (lost_step Ai) L acc) = ip_lost acc ++ flat_map (lost_part Ai) L
  /\ ip_changed (fold_left (lost_step Ai) L acc) = ip_changed acc ++ flat_map (down_part Ai) L.
Proof.
  revert acc; induction L as [|[k v] r IH]; intros acc Hnd Hid Hg; cbn [fold_left flat_map];
    [rewrite !app_nil_r; tauto|].
  simpl in Hnd; inversion Hnd as [|? ? Hnin Hnd']; subst.
  assert (Hid' : forall k v, In (k, v) r -> e_id v = k) by (intros; apply Hid; right; assumption).
  unfold lost_part at 1, down_part at 1; cbn [fst snd].
  destruct (JsMap.get Z.eqb Ai k) as [a|] eqn:Ea.
  - destruct (e_count a <? e_count v) eqn:Elt.
    + assert (Hx : existsb (fun c => c_id c =? k) (ip_changed acc) = false).
      { apply not_true_iff_false; rewrite existsb_exists; intros [c [Hc Heq]].
        apply Z.eqb_eq in Heq.
        apply (Hg k v a (or_introl eq_refl) Ea (proj1 (Z.ltb_lt _ _) Elt)).
        rewrite <- Heq; apply in_map; exact Hc. }
      assert (Hs : lost_step Ai acc (k, v)
                   = mkInvPart (ip_gained acc) (ip_lost acc)
                       (ip_changed acc ++ [mkInvChange (e_name v) (e_count v) (e_id v)
                                             (e_count v) (e_count a)])
                       (ip_summary acc ++ [SInvMinus (e_count v - e_count a) (e_name v)]))
        by (unfold lost_step; rewrite Ea, Elt, Hx; reflexivity).
      rewrite Hs.
      destruct (IH (mkInvPart (ip_gained acc) (ip_lost acc)
                       (ip_changed acc ++ [mkInvChange (e_name v) (e_count v) (e_id v)
                                             (e_count v) (e_count a)])
                       (ip_summary acc ++ [SInvMinus (e_count v - e_count a) (e_name v)]))
                  Hnd' Hid') as [G [Lo C]].
      * intros k' v' a' Hin Ea' Hlt; simpl; rewrite map_app, in_app_iff; simpl.
        intros [Hc|[Hc|[]]].
        -- exact (Hg k' v' a' (or_intror Hin) Ea' Hlt Hc).
        -- rewrite (Hid k v (or_introl eq_refl)) in Hc; subst k'.
           apply Hnin; change k with (fst (k, v')); apply in_map; exact Hin.
      * simpl in *; rewrite G, Lo, C, <- app_assoc; auto.
    + assert (Hs : lost_step Ai acc (k, v) = acc) by (unfold lost_step; rewrite Ea, Elt; reflexivity).
      rewrite Hs.
      destruct (IH acc Hnd' Hid') as [G [Lo C]];
        [intros k' v' a' Hin' Ea' Hlt'; apply (Hg k' v' a'); auto; right; assumption|].
      rewrite G, Lo, C; simpl; auto.
  - assert (Hs : lost_step Ai acc (k, v)
                 = mkInvPart (ip_gained acc) (ip_lost acc ++ [v]) (ip_changed acc)
                     (ip_summary acc ++ [SInvMinus (e_count v) (e_name v)]))
      by (unfold lost_step; rewrite Ea; reflexivity).
    rewrite Hs.
    destruct (IH (mkInvPart (ip_gained acc) (ip_lost acc ++ [v]) (ip_changed acc)
                     (ip_summary acc ++ [SInvMinus (e_count v) (e_name v)])) Hnd' Hid')
      as [G [Lo C]]; [intros k' v' a' Hin' Ea' Hlt'; apply (Hg k' v' a'); auto; right; assumption|].
    simpl in *; rewrite G, Lo, C, <- app_assoc; auto.
Qed.

Lemma NoDup_flat_map_keys {V C : Type} (cid : C -> Z) (f : Z * V -> list C) L :
  NoDup (map fst L) ->
  (forall e c, In e L -> In c (f e) -> cid c = fst e) ->
  (forall e, In e L -> length (f e) <= 1)%nat ->
  NoDup (map cid (flat_map f L)).
Proof.
  induction L as [|e r IH]; simpl; intros Hnd Hc Hl; [constructor|].
  inversion Hnd as [|? ? Hnin Hnd']; subst.
  rewrite map_app.
  pose proof (Hl e (or_introl eq_refl)) as Hle.
  assert (IH' : NoDup (map cid (flat_map f r))).
  { apply IH; [exact Hnd' | intros e1 c1 He1 Hc1; apply Hc; [right; exact He1 | exact Hc1]
              | intros e1 He1; apply Hl; right; exact He1]. }
  destruct (f e) as [|c [|c' t]] eqn:Ef.
  2: simpl; constructor; [|exact IH'].
  3: simpl in Hle; lia.
  1: exact IH'.
  rewrite (Hc e c (or_introl eq_refl) ltac:(rewrite Ef; left; reflexivity)).
  rewrite in_map_iff; intros [c1 [Hc1 Hin]].
    apply in_flat_map in Hin; destruct Hin as [e1 [He1 Hin1]].
    rewrite (Hc e1 c1 (or_intror He1) Hin1) in Hc1.
    apply Hnin; rewrite <- Hc1; apply in_map; exact He1.
Qed.

Lemma down_not_up (before after : BotWorldState) k v a :
  In (k, v) (group_items (inventory before)) ->
  JsMap.get Z.eqb (group_items (inventory after)) k = Some a -> e_count a < e_count v ->
  ~ In k (map c_id (flat_map (up_part (group_items (inventory before)))
                             (group_items (inventory after)))).
Proof.
  intros Hin Ea Hlt Hk.
  apply in_map_iff in Hk; destruct Hk as [c [Hc Hin']].
  apply in_flat_map in Hin'; destruct Hin' as [[k' v'] [He Hin2]].
  unfold up_part in Hin2; simpl in Hin2.
  destruct (JsMap.get Z.eqb (group_items (inventory before)) k') as [b|] eqn:Eb; [|contradiction].
  destruct (e_count b <? e_count v') eqn:Elt; [|contradiction].
  destruct Hin2 as [<-|[]]; simpl in Hc.
  rewrite (group_items_id _ _ _ He) in Hc; subst k'.
  rewrite (group_items_self_get _ _ _ He) in Ea; inversion Ea; subst a.
  rewrite (group_items_self_get _ _ _ Hin) in Eb; inversion Eb; subst b.
  apply Z.ltb_lt in Elt; lia.
Qed.

(** Extra X3: [inventory.gained] holds exactly the grouped entries of ids
    absent before, [inventory.lost] exactly those absent after, and
    [inventory.changed] one record per id present on both sides whose total
    count changed, with the counts before and after; no id is listed twice
    in [changed]. *)
Theorem computeStateDiff_inventory before after :
  let Bi := group_items (inventory before) in
  let Ai := group_items (inventory after) in
  let d := computeStateDiff before after in
  (forall e, In e (inv_gained d) <->
     exists id, JsMap.get Z.eqb Ai id = Some e /\ JsMap.get Z.eqb Bi id = None)
  /\ (forall e, In e (inv_lost d) <->
     exists id, JsMap.get Z.eqb Bi id = Some e /\ JsMap.get Z.eqb Ai id = None)
  /\ (forall c, In c (inv_changed d) <->
     exists id b a, JsMap.get Z.eqb Bi id = Some b /\ JsMap.get Z.eqb Ai id = Some a
       /\ e_count b <> e_count a
       /\ c = (if e_count b <? e_count a
               then mkInvChange (e_name a) (e_count a) id (e_count b) (e_count a)
               else mkInvChange (e_name b) (e_count b) id (e_count b) (e_count a)))
  /\ NoDup (map c_id (inv_changed d)).
Proof.
  intros Bi Ai d.
  assert (HndA : NoDup (map fst Ai)) by apply group_items_NoDup.
  assert (HndB : NoDup (map fst Bi)) by apply group_items_NoDup.
  assert (HidA : forall k v, In (k, v) Ai -> e_id v = k) by (intros; eapply group_items_id; eauto).
  assert (HidB : forall k v, In (k, v) Bi -> e_id v = k) by (intros; eapply group_items_id; eauto).
  destruct (gained_fold Bi Ai (mkInvPart [] [] [] [])) as [G1 [L1 C1]].
  destruct (lost_fold Ai Bi (fold_left (gained_step Bi) Ai (mkInvPart [] [] [] [])) HndB HidB)
    as [G2 [L2 C2]].
  { intros k v a Hin Ea Hlt; rewrite C1; apply (down_not_up before after k v a Hin Ea Hlt). }
  assert (Eg : inv_gained d = flat_map (gained_part Bi) Ai)
    by exact (eq_trans G2 G1).
  assert (El : inv_lost d = flat_map (lost_part Ai) Bi)
    by (rewrite L1 in L2; exact L2).
  assert (Ec : inv_changed d = flat_map (up_part Bi) Ai ++ flat_map (down_part Ai) Bi)
    by (rewrite C1 in C2; exact C2).
  assert (Hdn : forall k v a, In (k, v) Bi -> JsMap.get Z.eqb Ai k = Some a ->
                 e_count a < e_count v -> ~ In k (map c_id (flat_map (up_part Bi) Ai)))
    by exact (down_not_up before after).
  clearbody d Bi Ai.
  split; [|split; [|split]].
  - intros e; rewrite Eg, in_flat_map; split.
    + intros [[k v] [Hin He]]; unfold gained_part in He; simpl in He.
      destruct (JsMap.get Z.eqb Bi k) eqn:Eb; [contradiction|].
      destruct He as [<-|[]]; exists k; split; [|exact Eb].
      apply (get_iff Z.eqb Z.eqb_spec); assumption.
    + intros [k [Ea Eb]]; exists (k, e); split.
      * apply (get_iff Z.eqb Z.eqb_spec); assumption.
      * unfold gained_part; simpl; rewrite Eb; left; reflexivity.
  - intros e; rewrite El, in_flat_map; split.
    + intros [[k v] [Hin He]]; unfold lost_part in He; simpl in He.
      destruct (JsMap.get Z.eqb Ai k) eqn:Ea; [contradiction|].
      destruct He as [<-|[]]; exists k; split; [|exact Ea].
      apply (get_iff Z.eqb Z.eqb_spec); assumption.
    + intros [k [Eb Ea]]; exists (k, e); split.
      * apply (get_iff Z.eqb Z.eqb_spec); assumption.
      * unfold lost_part; simpl; rewrite Ea; left; reflexivity.
  - intros c; rewrite Ec, in_app_iff, !in_flat_map; split.
    + intros [[[k a] [Hin Hc]]|[[k b] [Hin Hc]]].
      * unfold up_part in Hc; simpl in Hc.
        destruct (JsMap.get Z.eqb Bi k) as [b|] eqn:Eb; [|contradiction].
        destruct (e_count b <? e_count a) eqn:Elt; [|contradiction].
        destruct Hc as [<-|[]].
        exists k, b, a; rewrite (HidA k a Hin), Elt; apply Z.ltb_lt in Elt.
        repeat split; [exact Eb | apply (get_iff Z.eqb Z.eqb_spec); assumption | lia].
      * unfold down_part in Hc; simpl in Hc.
        destruct (JsMap.get Z.eqb Ai k) as [a|] eqn:Ea; [|contradiction].
        destruct (e_count a <? e_count b) eqn:Elt; [|contradiction].
        destruct Hc as [<-|[]].
        exists k, b, a; rewrite (HidB k b Hin); apply Z.ltb_lt in Elt.
        destruct (Z.ltb_spec (e_count b) (e_count a)); [lia|].
        repeat split; [apply (get_iff Z.eqb Z.eqb_spec); assumption | exact Ea | lia].
    + intros [k [b [a [Eb [Ea [Hne ->]]]]]].
      destruct (Z.ltb_spec (e_count b) (e_count a)) as [Hlt|Hge].
      * left; exists (k, a); split; [apply (get_iff Z.eqb Z.eqb_spec); assumption|].
        unfold up_part; simpl; rewrite Eb.
        rewrite (proj2 (Z.ltb_lt _ _) Hlt), (HidA k a); [left; reflexivity|].
        apply (get_iff Z.eqb Z.eqb_spec); assumption.
      * right; exists (k, b); split; [apply (get_iff Z.eqb Z.eqb_spec); assumption|].
        unfold down_part; simpl; rewrite Ea.
        rewrite (proj2 (Z.ltb_lt (e_count a) (e_count b))) by lia.
        rewrite (HidB k b); [left; reflexivity|].
        apply (get_iff Z.eqb Z.eqb_spec); assumption.
  - rewrite Ec, map_app; apply NoDup_app.
    + apply NoDup_flat_map_keys; [exact HndA| |].
      * intros [k a] c Hin Hc; unfold up_part in Hc; simpl in Hc.
        destruct (JsMap.get Z.eqb Bi k); [|contradiction].
        destruct (_ <? _); [|contradiction]. destruct Hc as [<-|[]]; simpl; eauto.
      * intros [k a] _; unfold up_part; simpl.
        destruct (JsMap.get Z.eqb Bi k); [destruct (_ <? _)|]; simpl; lia.
    + apply NoDup_flat_map_keys; [exact HndB| |].
      * intros [k b] c Hin Hc; unfold down_part in Hc; simpl in Hc.
        destruct (JsMap.get Z.eqb Ai k); [|contradiction].
        destruct (_ <? _); [|contradiction]. destruct Hc as [<-|[]]; simpl; eauto.
      * intros [k b] _; unfold down_part; simpl.
        destruct (JsMap.get Z.eqb Ai k); [destruct (_ <? _)|]; simpl; lia.
    + intros k Hup Hdown.
      apply in_map_iff in Hdown; destruct Hdown as [c [Hck Hin]].
      apply in_flat_map in Hin; destruct Hin as [[k' b] [Hin Hc]].
      unfold down_part in Hc; simpl in Hc.
      destruct (JsMap.get Z.eqb Ai k') as [a|] eqn:Ea; [|contradiction].
      destruct (e_count a <? e_count b) eqn:Elt; [|contradiction].
      destruct Hc as [<-|[]]; simpl in Hck.
      rewrite (HidB k' b Hin) in Hck; subst k'.
      apply Z.ltb_lt in Elt.
      exact (Hdn k b a Hin Ea Elt Hup).
Qed.

Lemma find_app {A : Type} (p : A -> bool) l1 l2 :
  find p (l1 ++ l2) = match find p l1 with Some x => Some x | None => find p l2 end.
Proof.
  induction l1 as [|x r IH]; simpl; [reflexivity|].
  destruct (p x); [reflexivity|exact IH].
Qed.

Section IndexLast.
Context {K V A : Type} (keq : K -> K -> bool).
Hypothesis keq_spec : forall a b, reflect (a = b) (keq a b).
Context (f : A -> K) (g : A -> V).

Lemma index_get_last xs m k :
  JsMap.get keq (JsMapFacts.index keq f g xs m) k =
  match find (fun x => keq (f x) k) (rev xs) with
  | Some x => Some (g x)
  | None => JsMap.get keq m k
  end.
Proof.
  revert m; induction xs as [|x r IH]; intros m; [reflexivity|].
  unfold JsMapFacts.index in *; simpl; rewrite IH, find_app; simpl.
  destruct (find (fun x0 => keq (f x0) k) (rev r)); [reflexivity|].
  destruct (keq_spec (f x) k) as [<-|Hne].
  - apply (JsMapFacts.get_set_same keq keq_spec).
  - apply (JsMapFacts.get_set_other keq keq_spec); exact Hne.
Qed.

Lemma index_NoDup xs m :
  NoDup (map fst m) -> NoDup (map fst (JsMapFacts.index keq f g xs m)).
Proof.
  revert m; induction xs as [|x r IH]; intros m Hnd; [exact Hnd|].
  apply IH; apply (JsMapFacts.set_NoDup keq keq_spec); exact Hnd.
Qed.
End IndexLast.

Lemma npc_map_NoDup ns : NoDup (map fst (npc_map ns)).
Proof. rewrite npc_map_index; apply (index_NoDup Z.eqb Z.eqb_spec); constructor. Qed.

Lemma npc_map_get ns k :
  JsMap.get Z.eqb (npc_map ns) k = find (fun n => npc_index n =? k) (rev ns).
Proof.
  rewrite npc_map_index, (index_get_last Z.eqb Z.eqb_spec); simpl.
  destruct (find _ _); reflexivity.
Qed.

Lemma npc_map_has_false ns k :
  JsMap.has Z.eqb (npc_map ns) k = false <-> (forall n, In n ns -> npc_index n <> k).
Proof.
  rewrite <- not_true_iff_false, (JsMapFacts.has_In Z.eqb Z.eqb_spec), npc_map_index,
    (JsMapFacts.index_keys Z.eqb Z.eqb_spec); simpl.
  rewrite in_map_iff; split.
  - intros H n Hn Heq; apply H; left; exists n; auto.
  - intros H [[n [Heq Hn]]|[]]; exact (H n Hn Heq).
Qed.

Lemma npc_gone_iff before after k n :
  In (k, n) (filter (fun e => negb (JsMap.has Z.eqb (npc_map (nearbyNpcs after)) (fst e)))
                    (npc_map (nearbyNpcs before)))
  <-> find (fun n => npc_index n =? k) (rev (nearbyNpcs before)) = Some n
      /\ (forall n', In n' (nearbyNpcs after) -> npc_index n' <> k).
Proof.
  rewrite filter_In, <- npc_map_get, <- (get_iff Z.eqb Z.eqb_spec) by apply npc_map_NoDup.
  simpl; rewrite negb_true_iff, npc_map_has_false; tauto.
Qed.

(** Extra X4: [npcs.appeared] lists the NPCs of [after] whose index is not
    among the indices before; [npcs.disappeared] lists, once per index, the
    last NPC of [before] with an index absent after; [npcs.died] is the part
    of it that was in combat; the summary ends with one line per death. *)
Theorem computeStateDiff_npcs before after :
  let d := computeStateDiff before after in
  (forall r, In r (npcs_appeared d) <->
     exists n, In n (nearbyNpcs after) /\ r = mkNpcRef (npc_name n) (npc_index n)
               /\ forall n', In n' (nearbyNpcs before) -> npc_index n' <> npc_index n)
  /\ (forall r, In r (npcs_disappeared d) <->
     (exists n, find (fun n => npc_index n =? r_index r) (rev (nearbyNpcs before)) = Some n
                /\ r_name r = npc_name n)
     /\ forall n', In n' (nearbyNpcs after) -> npc_index n' <> r_index r)
  /\ (forall r, In r (npcs_died d) <->
     In r (npcs_disappeared d)
     /\ exists n, find (fun n => npc_index n =? r_index r) (rev (nearbyNpcs before)) = Some n
                  /\ npc_inCombat n = true)
  /\ NoDup (map r_index (npcs_disappeared d))
  /\ summary d = ip_summary (diff_inventory before after) ++ snd (diff_skills before after)
                 ++ snd (diff_combat before after) ++ snd (diff_position before after)
                 ++ snd (diff_ui before after) ++ map (fun r => SDied (r_name r)) (npcs_died d).
Proof.
  intros d; unfold d, computeStateDiff, diff_npcs; cbn [npcs_appeared npcs_disappeared npcs_died
    np_appeared np_disappeared np_died np_summary summary].
  split; [|split; [|split; [|split]]].
  - intros r; rewrite in_map_iff; split.
    + intros [n [<- Hin]]; apply filter_In in Hin; destruct Hin as [Hin Hh].
      apply negb_true_iff in Hh; exists n; split; [exact Hin|split; [reflexivity|]].
      exact (proj1 (npc_map_has_false _ _) Hh).
    + intros [n [Hin [-> Hn]]]; exists n; split; [reflexivity|].
      apply filter_In; split; [exact Hin|]; apply negb_true_iff; exact (proj2 (npc_map_has_false _ _) Hn).
  - intros r; rewrite in_map_iff; split.
    + intros [[k n] [<- Hin]]; apply npc_gone_iff in Hin; simpl.
      destruct Hin as [Hf Ha]; split; [exists n; auto|exact Ha].
    + intros [[n [Hf Hnm]] Ha]; exists (r_index r, n); split.
      * destruct r; simpl in *; subst; reflexivity.
      * apply npc_gone_iff; auto.
  - intros r; rewrite !in_map_iff; split.
    + intros [[k n] [<- Hin]]; apply filter_In in Hin; destruct Hin as [Hin Hc]; simpl in *.
      split; [exists (k, n); auto|].
      exists n; split; [|exact Hc]; apply npc_gone_iff in Hin; apply Hin.
    + intros [[[k n] [<- Hin]] [n' [Hf Hc]]]; simpl in Hf.
      exists (k, n); split; [reflexivity|]; apply filter_In; split; [exact Hin|].
      apply npc_gone_iff in Hin; destruct Hin as [Hf' _]; rewrite Hf in Hf'.
      inversion Hf'; subst; exact Hc.
  - rewrite map_map; simpl.
    assert (H : forall l : list (Z * NearbyNpc), NoDup (map fst l) ->
                forall p, NoDup (map fst (filter p l))).
    { induction l as [|[k n] r IH]; simpl; intros Hnd p; [constructor|].
      inversion Hnd as [|? ? Hnin Hnd']; subst.
      destruct (p (k, n)); simpl; [|apply IH; exact Hnd'].
      constructor; [|apply IH; exact Hnd'].
      intros Hk; apply Hnin; rewrite in_map_iff in *; destruct Hk as [e [He Hin]].
      apply filter_In in Hin; exists e; tauto. }
    apply H, npc_map_NoDup.
  - rewrite map_map; reflexivity.
Qed.

Section SetIn.
Context {K V : Type} (keq : K -> K -> bool).
Hypothesis keq_spec : forall a b, reflect (a = b) (keq a b).
Lemma set_In_inv (m : list (K * V)) k0 v0 k v :
  In (k, v) (JsMap.set keq m k0 v0) -> (k = k0 /\ v = v0) \/ In (k, v) m.
Proof.
  induction m as [|[k1 v1] r IH]; simpl.
  - intros [H|[]]; inversion H; subst; left; split; reflexivity.
  - destruct (keq_spec k1 k0) as [->|Hne]; simpl.
    + intros [H|H]; [inversion H; subst; left; split; reflexivity|right; right; exact H].
    + intros [H|H]; [right; left; exact H|]. destruct (IH H) as [H'|H']; [left|right; right]; tauto.
Qed.
End SetIn.

Lemma kp_refl m : keeps_pending m m.
Proof. intros H; exact H. Qed.

Lemma kp_trans m1 m2 m3 : keeps_pending m1 m2 -> keeps_pending m2 m3 -> keeps_pending m1 m3.
Proof. intros A B H; exact (B (A H)). Qed.

Lemma kp_same m m' : m_tasks m' = m_tasks m -> keeps_pending m m'.
Proof. intros E H tid t; rewrite E; apply H. Qed.

Lemma kp_update_task m tid f :
  (forall t, task_ok t -> task_ok (f t)) -> keeps_pending m (update_task m tid f).
Proof.
  intros Hf H tid0 t0; unfold update_task.
  destruct (get_task m tid) as [t|] eqn:Ht; [|apply H]; simpl; intros Hin.
  destruct (set_In_inv TaskId_eqb TaskId_eqb_spec _ _ _ _ _ Hin) as [[-> ->]|Hin'].
  - apply Hf; intros Hs; apply (H tid t); [|exact Hs].
    apply (get_In TaskId_eqb TaskId_eqb_spec); exact Ht.
  - exact (H _ _ Hin').
Qed.

Lemma kp_update_ctx m tid f : keeps_pending m (update_ctx m tid f).
Proof. apply kp_same, update_ctx_tasks. Qed.

Lemma kp_enqueue m j : keeps_pending m (enqueue m j).
Proof. apply kp_same; reflexivity. Qed.

Lemma kp_remove_frame m k : keeps_pending m (remove_frame m k).
Proof. apply kp_same; reflexivity. Qed.

Ltac task_ok_step :=
  let t := fresh "t" in let Ht := fresh "Ht" in
  intros t Ht; unfold task_ok in *; cbn [task_with onProgress t_status t_pending];
  first [exact Ht | intros ?Hs; discriminate Hs | intros _; discriminate].

Create HintDb pend.
Global Hint Resolve kp_update_ctx kp_enqueue kp_remove_frame : pend.
Global Hint Extern 1 (keeps_pending _ (update_task _ _ _)) =>
  apply kp_update_task; task_ok_step : pend.

Ltac keep :=
  cbv beta iota zeta;
  match goal with
  | |- keeps_pending ?m ?m => apply kp_refl
  | |- keeps_pending ?m (_ ?y _) => apply (kp_trans m y); [keep|solve [auto with pend]]
  | |- keeps_pending ?m (_ ?y _ _) => apply (kp_trans m y); [keep|solve [auto with pend]]
  | |- keeps_pending ?m (_ ?y _ _ _) => apply (kp_trans m y); [keep|solve [auto with pend]]
  | |- keeps_pending ?m (_ ?y _ _ _ _) => apply (kp_trans m y); [keep|solve [auto with pend]]
  end.

Lemma report_kp m tid p now : keeps_pending m (report m tid p now).
Proof. unfold report; keep. Qed.
Global Hint Resolve report_kp : pend.

Lemma setAction_kp m tid a now : keeps_pending m (setAction m tid a now).
Proof. unfold setAction; keep. Qed.
Global Hint Resolve setAction_kp : pend.

Lemma completeTask_kp m tid now : keeps_pending m (completeTask m tid now).
Proof. unfold completeTask; destruct (get_task m tid), (get_ctx m tid); keep. Qed.
Global Hint Resolve completeTask_kp : pend.

Lemma failTask_kp m tid err now : keeps_pending m (failTask m tid err now).
Proof. unfold failTask; destruct (get_task m tid), (get_ctx m tid); keep. Qed.
Global Hint Resolve failTask_kp : pend.

Lemma handleCheckpoint_kp m tid st now k : keeps_pending m (handleCheckpoint m tid st now k).
Proof. unfold handleCheckpoint; destruct (get_task m tid); keep. Qed.
Global Hint Resolve handleCheckpoint_kp : pend.

Lemma checkpoint_call_kp m tid reason cont now :
  keeps_pending m (checkpoint_call m tid reason cont now).
Proof.
  unfold checkpoint_call; destruct (get_ctx m tid) as [c|]; [|apply kp_refl].
  destruct (checkpoint_begin c reason) as [c1 st]; cbv beta iota zeta.
  eapply kp_trans; [|apply handleCheckpoint_kp]. apply kp_same; reflexivity.
Qed.
Global Hint Resolve checkpoint_call_kp : pend.

Lemma run_body_kp b m tid now : keeps_pending m (run_body m tid b now).
Proof.
  revert m; induction b as [|s rest IH]; intros m; simpl; [keep|].
  destruct s; try keep.
  destruct (get_ctx m tid); [destruct (shouldContinue t)|]; first [apply IH | keep].
Qed.
Global Hint Resolve run_body_kp : pend.

Lemma process_job_kp m j now : keeps_pending m (process_job m j now).
Proof.
  destruct j as [k r|tid|tid msg]; simpl.
  - destruct (JsMap.get Nat.eqb (m_frames m) k) as [f|]; [|apply kp_refl].
    destruct (f_cont f); keep.
  - keep.
  - destruct (get_task m tid) as [t|]; [destruct (TaskState_eqb (t_status t) TAwaitingFeedback)|];
      keep.
Qed.

Lemma drain_kp fuel m now : keeps_pending m (drain fuel m now).
Proof.
  revert m; induction fuel as [|f IH]; intros m; simpl; [apply kp_refl|].
  unfold pop_job; destruct (m_jobs m) as [|j js]; [apply kp_refl|].
  eapply kp_trans; [|apply IH].
  eapply kp_trans; [|apply process_job_kp].
  apply kp_same; reflexivity.
Qed.

Lemma settle_kp m now : keeps_pending m (settle m now).
Proof. apply drain_kp. Qed.
Global Hint Resolve settle_kp : pend.

Lemma cleanup_kp now maxAge m : keeps_pending m (fst (cleanup now maxAge m)).
Proof.
  intros H tid t Hin; unfold cleanup in Hin; rewrite cleanup_fold_tasks in Hin.
  apply table_after_sub in Hin; exact (H tid t Hin).
Qed.

Lemma run_task_kp m botName description body now :
  keeps_pending m (fst (run_task m botName description body now)).
Proof.
  unfold run_task; cbn [fst].
  eapply kp_trans; [|apply settle_kp]. eapply kp_trans; [|apply run_body_kp].
  intros H tid t Hin; simpl in Hin.
  destruct (set_In_inv TaskId_eqb TaskId_eqb_spec _ _ _ _ _ Hin) as [[_ ->]|Hin'].
  - intros Hs; discriminate Hs.
  - exact (H _ _ Hin').
Qed.

Lemma continue_op_kp m tid i now : keeps_pending m (fst (continue_op m tid i now)).
Proof.
  unfold continue_op, continueTask.
  destruct (get_task m tid) as [t|]; [destruct (t_pending t)|];
    cbv beta iota zeta delta [fst]; keep.
Qed.

Lemma abort_op_kp m tid reason now : keeps_pending m (fst (abort_op m tid reason now)).
Proof.
  unfold abort_op, abortTask.
  destruct (get_task m tid) as [t|]; [destruct (t_pending t)|];
    cbv beta iota zeta delta [fst]; keep.
Qed.

Lemma exec_op_kp m op : keeps_pending m (exec_op m op).
Proof.
  destruct op; simpl;
    [apply run_task_kp|apply continue_op_kp|apply abort_op_kp|apply cleanup_kp].
Qed.

Lemma exec_ops_kp ops m : keeps_pending m (exec_ops m ops).
Proof.
  unfold exec_ops; revert m; induction ops as [|op r IH]; intros m; simpl; [apply kp_refl|].
  eapply kp_trans; [apply exec_op_kp|apply IH].
Qed.

Lemma exec_ops_awaiting_pending ops : awaiting_pending (exec_ops emptyMachine ops).
Proof. apply exec_ops_kp; intros tid t []. Qed.

Lemma get_task_In m tid t : get_task m tid = Some t -> In (tid, t) (m_tasks m).
Proof. apply (get_In TaskId_eqb TaskId_eqb_spec). Qed.

(** Extra X8: on every machine reachable from the empty one, the
    [continue_task] handler with a task id never reports an error from
    [continueTask]: a resumed task was awaiting feedback and gets a result
    carrying the instructions; otherwise the task is unknown or not paused. *)
Theorem continue_task_handler_reachable ops tid instructions now :
  let m := exec_ops emptyMachine ops in
  match snd (continue_task_handler m (Some tid) instructions now) with
  | CRResumed r => r = mkResult true instructions false None
                   /\ status_of m tid = Some TAwaitingFeedback
  | CRNotPaused st => status_of m tid = Some st /\ st <> TAwaitingFeedback
  | CRNotFound => status_of m tid = None
  | CRError _ | CRMissingId => False
  end.
Proof.
  intros m; pose proof (exec_ops_awaiting_pending ops) as Hinv; fold m in Hinv.
  clearbody m; unfold continue_task_handler, status_of.
  destruct (get_task m tid) as [t|] eqn:Ht; simpl; [|reflexivity].
  destruct (t_status t) eqn:Hs; simpl; try (split; [reflexivity|discriminate]).
  unfold continue_op, continueTask; rewrite Ht.
  destruct (t_pending t) as [pc|] eqn:Hp.
  - simpl; split; reflexivity.
  - exact (Hinv tid t (get_task_In _ _ _ Ht) Hs Hp).
Qed.

Lemma update_task_fields m tid f :
  m_jobs (update_task m tid f) = m_jobs m /\ m_contexts (update_task m tid f) = m_contexts m
  /\ m_frames (update_task m tid f) = m_frames m.
Proof. unfold update_task; destruct (get_task m tid); repeat split. Qed.

Lemma update_ctx_fields m tid f :
  m_jobs (update_ctx m tid f) = m_jobs m /\ m_tasks (update_ctx m tid f) = m_tasks m
  /\ m_frames (update_ctx m tid f) = m_frames m.
Proof. unfold update_ctx; destruct (get_ctx m tid); repeat split. Qed.

Lemma get_task_update_other m tid tid' f :
  tid' <> tid -> get_task (update_task m tid f) tid' = get_task m tid'.
Proof.
  intros Hne; unfold update_task; destruct (get_task m tid); [|reflexivity].
  unfold get_task; simpl.
  apply (JsMapFacts.get_set_other TaskId_eqb TaskId_eqb_spec); congruence.
Qed.

(** Extra X9: [abortTask] of an unknown task changes nothing and throws
    [Task not found]; otherwise it marks the task aborted, releases the
    waiting checkpoint with an abort result carrying the reason (or
    [Task aborted by user]), cleans the context and leaves every other task
    and the frames unchanged. *)
Theorem abortTask_spec (m : Machine) (tid : TaskId) (reason : option string) (now : Z) :
  let '(m', res) := abortTask m tid reason now in
  match get_task m tid with
  | None => res = Some TaskNotFound /\ m' = m
  | Some t =>
      res = None
      /\ get_task m' tid = Some (task_with t TAborted now None)
      /\ (forall tid', tid' <> tid -> get_task m' tid' = get_task m tid')
      /\ m_jobs m' = m_jobs m ++
           match t_pending t with
           | Some pc =>
               [JResume (pc_resolve pc)
                  (mkResult false None true
                     (Some (match truthy reason with
                            | Some s => s | None => "Task aborted by user"%string end)))]
           | None => []
           end
      /\ m_frames m' = m_frames m
      /\ (forall c, get_ctx m tid = Some c -> get_ctx m' tid = Some (ctx_cleanup c))
  end.
Proof.
  unfold abortTask; destruct (get_task m tid) as [t|] eqn:Ht; [|split; reflexivity].
  set (m1 := match t_pending t with Some pc => enqueue m _ | None => m end).
  assert (E1 : get_task m1 tid = Some t /\ m_contexts m1 = m_contexts m
               /\ m_frames m1 = m_frames m
               /\ (forall tid', get_task m1 tid' = get_task m tid')
               /\ m_jobs m1 = m_jobs m ++ match t_pending t with
                    | Some pc => [JResume (pc_resolve pc)
                        (mkResult false None true
                           (Some (match truthy reason with
                                  | Some s => s | None => "Task aborted by user"%string end)))]
                    | None => [] end).
  { unfold m1; destruct (t_pending t); simpl; rewrite ?app_nil_r; repeat split; auto. }
  destruct E1 as [G1 [C1 [F1 [O1 J1]]]]; clearbody m1.
  set (m2 := update_task m1 tid (fun t => task_with t TAborted now None)).
  destruct (update_task_fields m1 tid (fun t => task_with t TAborted now None)) as [J2 [C2 F2]].
  fold m2 in J2, C2, F2.
  destruct (update_ctx_fields m2 tid ctx_cleanup) as [J3 [T3 F3]].
  split; [reflexivity|].
  assert (T3' : forall x, get_task (update_ctx m2 tid ctx_cleanup) x = get_task m2 x)
    by (intros x; unfold get_task; rewrite T3; reflexivity).
  rewrite !T3'.
  split; [unfold m2; exact (get_task_update_same m1 tid (fun t => task_with t TAborted now None) t G1)|].
  split; [intros tid' Hne; rewrite T3'; unfold m2; rewrite get_task_update_other by exact Hne; apply O1|].
  split; [rewrite J3, J2; exact J1|].
  split; [rewrite F3, F2; exact F1|].
  intros c Hc; unfold update_ctx.
  assert (Hc2 : get_ctx m2 tid = Some c) by (unfold get_ctx; rewrite C2, C1; exact Hc).
  rewrite Hc2; unfold get_ctx; simpl.
  apply (JsMapFacts.get_set_same TaskId_eqb TaskId_eqb_spec).
Qed.


Example z_to_string_ex : map z_to_string [0; 7; 10; 99; 100; 1234; -5; -120]
  = ["0"; "7"; "10"; "99"; "100"; "1234"; "-5"; "-120"]%string.
Proof. reflexivity. Qed.

(** Extra X6: [formatStateDiff] prints [(no significant changes)] exactly
    when the summary is empty. *)
Theorem formatStateDiff_no_changes_iff (d : StateDiff) :
  formatStateDiff d = "(no significant changes)"%string <-> summary d = [].
Proof.
  unfold formatStateDiff; destruct (summary d) as [|l ls]; [tauto|].
  split; [|discriminate]; simpl; intros H; discriminate H.
Qed.





(** Extra X5: [computeStateDiff] never reads the combat events or the game
    messages of [before]; its summary does not depend on the interface flag
    or the messages of [after]; and no UI flag is reported both opened and
    closed. *)
Theorem computeStateDiff_unread_fields (before after : BotWorldState)
  (evs : option (list CombatEvent)) (ms ms' : option (list GameMessage)) (i : option bool) :
  computeStateDiff (mkState (tick before) (player before) (inventory before) (skills before)
                            (nearbyNpcs before) (dialog_isOpen before) (interface_isOpen before)
                            (shop before) evs ms) after
  = computeStateDiff before after
  /\ summary (computeStateDiff before
                (mkState (tick after) (player after) (inventory after) (skills after)
                         (nearbyNpcs after) (dialog_isOpen after) i (shop after)
                         (combatEvents after) ms'))
     = summary (computeStateDiff before after)
  /\ (dialogOpened (ui (computeStateDiff before after))
        && dialogClosed (ui (computeStateDiff before after))) = false
  /\ (interfaceOpened (ui (computeStateDiff before after))
        && interfaceClosed (ui (computeStateDiff before after))) = false
  /\ (shopOpened (ui (computeStateDiff before after))
        && shopClosed (ui (computeStateDiff before after))) = false.
Proof.
  destruct before as [t1 p1 inv1 sk1 n1 d1 io1 sh1 ce1 gm1],
    after as [t2 p2 inv2 sk2 n2 d2 io2 sh2 ce2 gm2]; split; [reflexivity|split; [reflexivity|]].
  unfold computeStateDiff, diff_ui; cbn.
  destruct d1, d2, (open_flag io1), (open_flag io2), (shop_open sh1), (shop_open sh2);
    repeat split.
Qed.

Lemma damage_of_cons ty e r :
  damage_of ty (e :: r) = (if String.eqb (evt_type e) ty then evt_damage e else 0) + damage_of ty r.
Proof. unfold damage_of; simpl; destruct (evt_type e =? ty)%string; [reflexivity|symmetry; apply Z.add_0_l]. Qed.

Lemma count_of_cons ty e r :
  count_of ty (e :: r) = (if String.eqb (evt_type e) ty then 1 else 0) + count_of ty r.
Proof. unfold count_of; simpl; destruct (evt_type e =? ty)%string; [reflexivity|symmetry; apply Z.add_0_l]. Qed.

Lemma combat_fold evs c :
  fold_left combat_step evs c
  = mkCombat (damageTaken c + damage_of "damage_taken" evs)
             (damageDealt c + damage_of "damage_dealt" evs)
             (kills c + count_of "kill" evs) (healthChange c).
Proof.
  revert c; induction evs as [|e r IH]; intros [dt dd k h]; cbn [fold_left].
  - unfold damage_of, count_of; simpl; rewrite !Z.add_0_r; reflexivity.
  - rewrite IH, !damage_of_cons, count_of_cons; unfold combat_step; cbn [damageTaken damageDealt kills healthChange].
    generalize (damage_of "damage_taken" r) (damage_of "damage_dealt" r) (count_of "kill" r).
    intros A B C.
    destruct (String.eqb_spec (evt_type e) "damage_taken") as [E1|N1];
      destruct (String.eqb_spec (evt_type e) "damage_dealt") as [E2|N2];
      destruct (String.eqb_spec (evt_type e) "kill") as [E3|N3];
      cbn [damageTaken damageDealt kills healthChange]; try congruence; f_equal; lia.
Qed.

(** Extra X11: the combat totals are the damage taken, the damage dealt and
    the kill count of the events of [after] newer than [before.tick], the
    health change is the difference of the Hitpoints levels (10 when
    missing), and a summary line is emitted for each positive total. *)
Theorem computeStateDiff_combat (before after : BotWorldState) :
  let newEvents := match combatEvents after with
                   | Some evs => filter (fun e => tick before <? evt_tick e) evs
                   | None => [] end in
  combat (computeStateDiff before after)
  = mkCombat (damage_of "damage_taken" newEvents) (damage_of "damage_dealt" newEvents)
             (count_of "kill" newEvents) (hitpoints (skills after) - hitpoints (skills before))
  /\ snd (diff_combat before after)
     = (if 0 <? damage_of "damage_taken" newEvents
        then [STook (damage_of "damage_taken" newEvents)] else [])
       ++ (if 0 <? damage_of "damage_dealt" newEvents
           then [SDealt (damage_of "damage_dealt" newEvents)] else [])
       ++ (if 0 <? count_of "kill" newEvents then [SKilled (count_of "kill" newEvents)] else []).
Proof.
  intros newEvents; unfold computeStateDiff, diff_combat, newEvents; cbv zeta; cbn [combat fst snd].
  destruct (combatEvents after) as [evs|].
  - rewrite combat_fold; cbn [damageTaken damageDealt kills healthChange]; rewrite !Z.add_0_l.
    split; reflexivity.
  - split; reflexivity.
Qed.

Lemma word_span_length r :
  String.length r = (String.length (fst (word_span r)) + String.length (snd (word_span r)))%nat.
Proof.
  induction r as [|c r IH]; simpl; [reflexivity|].
  destruct (is_word_char c); [|reflexivity].
  destruct (word_span r) as [w rest]; simpl in *; lia.
Qed.

Lemma strip_fuel_length f s : (String.length (strip_fuel f s) <= String.length s)%nat.
Proof.
  revert s; induction f as [|f IH]; intros s; simpl; [lia|].
  destruct s as [|c r]; simpl; [lia|].
  pose proof (IH r) as Hr.
  destruct (Ascii.eqb c "@"%char); [|simpl; lia].
  pose proof (word_span_length r) as Hw.
  destruct (word_span r) as [[|x w] [|c' r']]; simpl in *; try lia.
  destruct (Ascii.eqb c' "@"%char); simpl; [pose proof (IH r'); lia|lia].
Qed.

Lemma strip_fuel_plain f s :
  existsb (Ascii.eqb "@"%char) (list_ascii_of_string s) = false -> strip_fuel f s = s.
Proof.
  revert s; induction f as [|f IH]; intros s H; simpl; [reflexivity|].
  destruct s as [|c r]; [reflexivity|].
  cbn [existsb list_ascii_of_string] in H; apply orb_false_iff in H; destruct H as [Hc Hr].
  cbn [strip_fuel]; rewrite Ascii.eqb_sym, Hc, (IH r Hr); reflexivity.
Qed.

(** Extra X12: removing the colour markers never makes a message longer. *)
Theorem strip_markers_never_longer (s : string) :
  (String.length (strip_markers s) <= String.length s)%nat.
Proof. apply strip_fuel_length. Qed.

(** Extra X13: a message without [@] is kept unchanged. *)
Theorem strip_markers_plain (s : string)
  (Hs : existsb (Ascii.eqb "@"%char) (list_ascii_of_string s) = false) :
  strip_markers s = s.
Proof. apply strip_fuel_plain; exact Hs. Qed.

Lemma strip_markers_plain_witness :
  existsb (Ascii.eqb "@"%char) (list_ascii_of_string "You get some logs.") = false
  /\ strip_markers "You get some logs." = "You get some logs."%string.
Proof. split; [reflexivity|apply strip_markers_plain; reflexivity]. Defined.

Lemma skill_map_get ss n :
  JsMap.get String.eqb (skill_map ss) n = find (fun s => String.eqb (skill_name s) n) (rev ss).
Proof.
  rewrite skill_map_index, (index_get_last String.eqb String.eqb_spec); simpl.
  destruct (find _ _); reflexivity.
Qed.

(** Extra X14: an XP gain is reported for a skill of [after] exactly when
    the last skill of [before] with the same name had less experience; the
    entry holds the difference and the level-up data. *)
Theorem computeStateDiff_xp_entries (before after : BotWorldState) (x : XpGain) :
  In x (xpGained (computeStateDiff before after)) <->
  exists s b, In s (skills after)
    /\ find (fun b => String.eqb (skill_name b) (skill_name s)) (rev (skills before)) = Some b
    /\ skill_experience b < skill_experience s
    /\ x = mkXpGain (skill_name s) (skill_experience s - skill_experience b)
                    (skill_baseLevel b <? skill_baseLevel s)
                    (if skill_baseLevel b <? skill_baseLevel s
                     then Some (skill_baseLevel s) else None).
Proof.
  change (xpGained (computeStateDiff before after)) with (fst (diff_skills before after)).
  unfold diff_skills; rewrite diff_skills_entries_acc; simpl; rewrite in_flat_map.
  split.
  - intros [s [Hs Hx]]; unfold skill_entry in Hx; rewrite skill_map_get in Hx.
    destruct (find _ _) as [b|] eqn:Eb; [|destruct Hx].
    destruct (skill_experience b <? skill_experience s) eqn:Elt; [|destruct Hx].
    destruct Hx as [<-|[]]; exists s, b; apply Z.ltb_lt in Elt; auto.
  - intros [s [b [Hs [Eb [Hlt ->]]]]]; exists s; split; [exact Hs|].
    unfold skill_entry; rewrite skill_map_get, Eb, (proj2 (Z.ltb_lt _ _) Hlt); left; reflexivity.
Qed.

Lemma get_ctx_update_same m tid f c :
  get_ctx m tid = Some c -> get_ctx (update_ctx m tid f) tid = Some (f c).
Proof.
  unfold update_ctx; intros H; rewrite H; unfold get_ctx; simpl.
  apply (JsMapFacts.get_set_same TaskId_eqb TaskId_eqb_spec).
Qed.

Lemma get_task_update_ctx m tid f x : get_task (update_ctx m tid f) x = get_task m x.
Proof. unfold get_task; rewrite update_ctx_tasks; reflexivity. Qed.

Lemma get_ctx_update_task m tid f x : get_ctx (update_task m tid f) x = get_ctx m x.
Proof. unfold get_ctx; rewrite (proj1 (proj2 (update_task_fields m tid f))); reflexivity. Qed.

Lemma finish_effect m tid t c st g p now :
  get_task m tid = Some t -> get_ctx m tid = Some c ->
  let m' := update_ctx (report (update_ctx (update_task m tid
                (fun t => task_with t st now (t_pending t))) tid g) tid p now) tid ctx_cleanup in
  get_task m' tid = Some (onProgress (task_with t st now (t_pending t)) p now)
  /\ get_ctx m' tid = Some (ctx_cleanup (ctx_reportProgress (g c) p now))
  /\ m_jobs m' = m_jobs m /\ m_frames m' = m_frames m
  /\ (forall tid', tid' <> tid -> get_task m' tid' = get_task m tid').
Proof.
  intros Ht Hc m'; unfold m', report.
  set (f1 := fun t => task_with t st now (t_pending t)).
  set (m1 := update_task m tid f1).
  set (m2 := update_ctx m1 tid g).
  set (m3 := update_ctx m2 tid (fun c => ctx_reportProgress c p now)).
  set (m4 := update_task m3 tid (fun t => onProgress t p now)).
  destruct (update_task_fields m tid f1) as [J1 [C1 F1]]; fold m1 in J1, C1, F1.
  destruct (update_ctx_fields m1 tid g) as [J2 [T2 F2]]; fold m2 in J2, T2, F2.
  destruct (update_ctx_fields m2 tid (fun c => ctx_reportProgress c p now)) as [J3 [T3 F3]];
    fold m3 in J3, T3, F3.
  destruct (update_task_fields m3 tid (fun t => onProgress t p now)) as [J4 [C4 F4]];
    fold m4 in J4, C4, F4.
  destruct (update_ctx_fields m4 tid ctx_cleanup) as [J5 [T5 F5]].
  assert (G1 : get_task m1 tid = Some (f1 t)) by exact (get_task_update_same m tid f1 t Ht).
  assert (G3 : get_task m3 tid = Some (f1 t)) by (unfold m3, m2; rewrite !get_task_update_ctx; exact G1).
  split; [rewrite get_task_update_ctx; exact (get_task_update_same m3 tid _ _ G3)|].
  split.
  - apply get_ctx_update_same; unfold m4; rewrite get_ctx_update_task.
    unfold m3; apply (get_ctx_update_same m2 tid (fun c => ctx_reportProgress c p now)).
    unfold m2; apply get_ctx_update_same; unfold m1; rewrite get_ctx_update_task; exact Hc.
  - split; [congruence|split; [congruence|]].
    intros tid' Hne; rewrite get_task_update_ctx; unfold m4.
    rewrite get_task_update_other by exact Hne; unfold m3, m2; rewrite !get_task_update_ctx.
    unfold m1; apply get_task_update_other; exact Hne.
Qed.

(** Extra X15: [completeTask] marks a known task with a context completed,
    appends the history entry, marks the context completed, stops its
    listening and touches no other task, job or frame; otherwise it does
    nothing. *)
Theorem completeTask_spec (m : Machine) (tid : TaskId) (now : Z) :
  let m' := completeTask m tid now in
  match get_task m tid, get_ctx m tid with
  | Some t, Some c =>
      status_of m' tid = Some TCompleted
      /\ pending_of m' tid = t_pending t
      /\ history_of m' tid
         = t_progressHistory t ++ [mkProgress (ctx_currentAction c) PCompleted
                                              (Some "Task completed"%string)]
      /\ (exists c', get_ctx m' tid = Some c' /\ ctx_status c' = CCompleted
                     /\ ctx_progressReports c' = ctx_progressReports c
                          ++ [mkProgress (ctx_currentAction c) PCompleted
                                         (Some "Task completed"%string)]
                     /\ ctx_abortReason c' = ctx_abortReason c
                     /\ ctx_listening c' = false)
      /\ m_jobs m' = m_jobs m /\ m_frames m' = m_frames m
      /\ (forall tid', tid' <> tid -> get_task m' tid' = get_task m tid')
  | _, _ => m' = m
  end.
Proof.
  intros m'; unfold m', completeTask.
  destruct (get_task m tid) as [t|] eqn:Ht; [|reflexivity].
  destruct (get_ctx m tid) as [c|] eqn:Hc; [|reflexivity].
  destruct (finish_effect m tid t c TCompleted (fun c => ctx_with_status c CCompleted)
              (complete_report c) now Ht Hc) as [G [C [J [F O]]]].
  unfold status_of, pending_of, history_of; rewrite G.
  repeat split; try assumption.
  eexists; split; [exact C|]; repeat split.
Qed.

(** Extra X16: [failTask] marks a known task with a context failed with the
    error, appends the history entry, records the error as the context's
    abort reason and touches no other task, job or frame; otherwise it does
    nothing. *)
Theorem failTask_spec (m : Machine) (tid : TaskId) (err : string) (now : Z) :
  let m' := failTask m tid err now in
  match get_task m tid, get_ctx m tid with
  | Some t, Some c =>
      status_of m' tid = Some TFailed
      /\ pending_of m' tid = t_pending t
      /\ history_of m' tid
         = t_progressHistory t ++ [mkProgress (ctx_currentAction c) PFailed (Some err)]
      /\ (exists c', get_ctx m' tid = Some c' /\ ctx_status c' = CFailed
                     /\ ctx_progressReports c' = ctx_progressReports c
                          ++ [mkProgress (ctx_currentAction c) PFailed (Some err)]
                     /\ ctx_abortReason c' = Some err
                     /\ ctx_listening c' = false)
      /\ m_jobs m' = m_jobs m /\ m_frames m' = m_frames m
      /\ (forall tid', tid' <> tid -> get_task m' tid' = get_task m tid')
  | _, _ => m' = m
  end.
Proof.
  intros m'; unfold m', failTask.
  destruct (get_task m tid) as [t|] eqn:Ht; [|reflexivity].
  destruct (get_ctx m tid) as [c|] eqn:Hc; [|reflexivity].
  destruct (finish_effect m tid t c TFailed (fun c => ctx_fail_status c err)
              (fail_report c err) now Ht Hc) as [G [C [J [F O]]]].
  unfold status_of, pending_of, history_of; rewrite G.
  repeat split; try assumption.
  eexists; split; [exact C|]; repeat split.
Qed.

Lemma ts_refl m : tasks_shrink m m.
Proof. split; auto. Qed.

Lemma ts_trans m1 m2 m3 : tasks_shrink m1 m2 -> tasks_shrink m2 m3 -> tasks_shrink m1 m3.
Proof. intros [A1 B1] [A2 B2]; split; [auto|congruence]. Qed.

Lemma ts_same m m' : m_tasks m' = m_tasks m -> m_taskCounter m' = m_taskCounter m ->
  tasks_shrink m m'.
Proof. intros E C; split; [rewrite E; auto|exact C]. Qed.

Lemma ts_update_task m tid f : tasks_shrink m (update_task m tid f).
Proof.
  unfold update_task; destruct (get_task m tid) as [t|] eqn:Ht; [|apply ts_refl].
  split; [|reflexivity]; simpl; intros k Hk.
  apply (JsMapFacts.set_keys TaskId_eqb TaskId_eqb_spec) in Hk; destruct Hk as [->|Hk]; [|exact Hk].
  change tid with (fst (tid, t)); apply in_map, get_task_In, Ht.
Qed.

Lemma ts_update_ctx m tid f : tasks_shrink m (update_ctx m tid f).
Proof.
  apply ts_same; [apply update_ctx_tasks|unfold update_ctx; destruct (get_ctx m tid); reflexivity].
Qed.

Lemma ts_enqueue m j : tasks_shrink m (enqueue m j).
Proof. apply ts_same; reflexivity. Qed.

Lemma ts_remove_frame m k : tasks_shrink m (remove_frame m k).
Proof. apply ts_same; reflexivity. Qed.

Create HintDb shrink.
Global Hint Resolve ts_update_task ts_update_ctx ts_enqueue ts_remove_frame : shrink.

Ltac shrink :=
  cbv beta iota zeta;
  match goal with
  | |- tasks_shrink ?m ?m => apply ts_refl
  | |- tasks_shrink ?m (_ ?y _) => apply (ts_trans m y); [shrink|solve [auto with shrink]]
  | |- tasks_shrink ?m (_ ?y _ _) => apply (ts_trans m y); [shrink|solve [auto with shrink]]
  | |- tasks_shrink ?m (_ ?y _ _ _) => apply (ts_trans m y); [shrink|solve [auto with shrink]]
  | |- tasks_shrink ?m (_ ?y _ _ _ _) => apply (ts_trans m y); [shrink|solve [auto with shrink]]
  end.

Lemma report_ts m tid p now : tasks_shrink m (report m tid p now).
Proof. unfold report; shrink. Qed.
Global Hint Resolve report_ts : shrink.

Lemma setAction_ts m tid a now : tasks_shrink m (setAction m tid a now).
Proof. unfold setAction; shrink. Qed.
Global Hint Resolve setAction_ts : shrink.

Lemma completeTask_ts m tid now : tasks_shrink m (completeTask m tid now).
Proof. unfold completeTask; destruct (get_task m tid), (get_ctx m tid); shrink. Qed.
Global Hint Resolve completeTask_ts : shrink.

Lemma failTask_ts m tid err now : tasks_shrink m (failTask m tid err now).
Proof. unfold failTask; destruct (get_task m tid), (get_ctx m tid); shrink. Qed.
Global Hint Resolve failTask_ts : shrink.

Lemma handleCheckpoint_ts m tid st now k : tasks_shrink m (handleCheckpoint m tid st now k).
Proof. unfold handleCheckpoint; destruct (get_task m tid); shrink. Qed.
Global Hint Resolve handleCheckpoint_ts : shrink.

Lemma checkpoint_call_ts m tid reason cont now :
  tasks_shrink m (checkpoint_call m tid reason cont now).
Proof.
  unfold checkpoint_call; destruct (get_ctx m tid) as [c|]; [|apply ts_refl].
  destruct (checkpoint_begin c reason) as [c1 st]; cbv beta iota zeta.
  eapply ts_trans; [|apply handleCheckpoint_ts]. apply ts_same; reflexivity.
Qed.
Global Hint Resolve checkpoint_call_ts : shrink.

Lemma run_body_ts b m tid now : tasks_shrink m (run_body m tid b now).
Proof.
  revert m; induction b as [|s rest IH]; intros m; simpl; [shrink|].
  destruct s; try shrink.
  destruct (get_ctx m tid); [destruct (shouldContinue t)|]; first [apply IH | shrink].
Qed.
Global Hint Resolve run_body_ts : shrink.

Lemma process_job_ts m j now : tasks_shrink m (process_job m j now).
Proof.
  destruct j as [k r|tid|tid msg]; simpl.
  - destruct (JsMap.get Nat.eqb (m_frames m) k) as [f|]; [|apply ts_refl].
    destruct (f_cont f); shrink.
  - shrink.
  - destruct (get_task m tid) as [t|]; [destruct (TaskState_eqb (t_status t) TAwaitingFeedback)|];
      shrink.
Qed.

Lemma drain_ts fuel m now : tasks_shrink m (drain fuel m now).
Proof.
  revert m; induction fuel as [|f IH]; intros m; simpl; [apply ts_refl|].
  unfold pop_job; destruct (m_jobs m) as [|j js]; [apply ts_refl|].
  eapply ts_trans; [|apply IH].
  eapply ts_trans; [|apply process_job_ts].
  apply ts_same; reflexivity.
Qed.

Lemma settle_ts m now : tasks_shrink m (settle m now).
Proof. apply drain_ts. Qed.
Global Hint Resolve settle_ts : shrink.

Lemma continue_op_ts m tid i now : tasks_shrink m (fst (continue_op m tid i now)).
Proof.
  unfold continue_op, continueTask.
  destruct (get_task m tid) as [t|]; [destruct (t_pending t)|];
    cbv beta iota zeta delta [fst]; shrink.
Qed.

Lemma abort_op_ts m tid reason now : tasks_shrink m (fst (abort_op m tid reason now)).
Proof.
  unfold abort_op, abortTask.
  destruct (get_task m tid) as [t|]; [destruct (t_pending t)|];
    cbv beta iota zeta delta [fst]; shrink.
Qed.

Lemma cleanup_ts now maxAge m : tasks_shrink m (fst (cleanup now maxAge m)).
Proof.
  split; [apply cleanup_keys_sub|].
  unfold cleanup.
  apply (fold_left_invariant (fun acc => m_taskCounter (fst acc) = m_taskCounter m));
    [reflexivity|].
  intros [m0 n] [id t] H; simpl in *.
  destruct (evictable now maxAge t); [|exact H].
  simpl; unfold update_ctx; destruct (get_ctx m0 id); exact H.
Qed.

Lemma ts_tasks_issued m m' : tasks_shrink m m' -> tasks_issued m -> tasks_issued m'.
Proof. intros [K C] H tid Hin; rewrite C; apply H, K, Hin. Qed.

Lemma run_task_shape m botName description body now :
  let '(m', tid) := run_task m botName description body now in
  tid = (S (m_taskCounter m), now) /\ m_taskCounter m' = S (m_taskCounter m)
  /\ (forall k, In k (map fst (m_tasks m')) -> k = tid \/ In k (map fst (m_tasks m))).
Proof.
  unfold run_task; cbv zeta.
  match goal with |- context [settle (run_body ?m1 _ _ _) _] => set (m1' := m1) end.
  assert (T : tasks_shrink m1' (settle (run_body m1' (S (m_taskCounter m), now) body now) now)).
  { eapply ts_trans; [apply run_body_ts|apply settle_ts]. }
  destruct T as [K C]; split; [reflexivity|split; [exact C|]].
  intros k Hk; apply K in Hk; unfold m1' in Hk; simpl in Hk.
  apply (JsMapFacts.set_keys TaskId_eqb TaskId_eqb_spec) in Hk; exact Hk.
Qed.

Lemma exec_op_tasks_issued m op : tasks_issued m -> tasks_issued (exec_op m op).
Proof.
  intros H; destruct op as [b d body now|tid i now|tid r now|now maxAge]; cbn [exec_op].
  - pose proof (run_task_shape m b d body now) as Hshape.
    destruct (run_task m b d body now) as [m' tid]; cbn [fst].
    destruct Hshape as [-> [C K]]; intros k Hk; rewrite C.
    destruct (K k Hk) as [->|Hin]; [simpl; lia|specialize (H k Hin); lia].
  - exact (ts_tasks_issued _ _ (continue_op_ts m tid i now) H).
  - exact (ts_tasks_issued _ _ (abort_op_ts m tid r now) H).
  - exact (ts_tasks_issued _ _ (cleanup_ts now maxAge m) H).
Qed.

Lemma exec_ops_tasks_issued ops m : tasks_issued m -> tasks_issued (exec_ops m ops).
Proof.
  unfold exec_ops; revert m; induction ops as [|op r IH]; intros m H; simpl; [exact H|].
  apply IH, exec_op_tasks_issued, H.
Qed.

(** Extra X17: on every reachable machine, [run_task] issues a fresh task
    id: its counter is one more than the previous counter, no task and no
    context has it yet, and the table only gains that id. *)
Theorem run_task_fresh_id ops botName description body now :
  let m := exec_ops emptyMachine ops in
  let '(m', tid) := run_task m botName description body now in
  fst tid = S (m_taskCounter m) /\ m_taskCounter m' = fst tid
  /\ get_task m tid = None /\ get_ctx m tid = None
  /\ (forall k, In k (map fst (m_tasks m')) -> k = tid \/ In k (map fst (m_tasks m))).
Proof.
  intros m.
  assert (HT : tasks_issued m) by (apply exec_ops_tasks_issued; intros tid []).
  assert (HC : ids_issued m) by (apply exec_ops_extends, ids_issued_empty).
  clearbody m.
  pose proof (run_task_shape m botName description body now) as Hshape.
  destruct (run_task m botName description body now) as [m' tid].
  destruct Hshape as [-> [C K]]; simpl.
  split; [reflexivity|split; [exact C|split; [|split; [|exact K]]]].
  - unfold get_task; apply (get_None_iff TaskId_eqb TaskId_eqb_spec).
    intros Hin; specialize (HT _ Hin); simpl in HT; lia.
  - unfold get_ctx; apply (get_None_iff TaskId_eqb TaskId_eqb_spec).
    intros Hin; specialize (HC _ Hin); simpl in HC; lia.
Qed.
